(** * Training-item tree model of the micro-learning application

    A shallow embedding of
    - [core/models/training-item.model.ts]  (class [TrainingItem]),
    - [core/services/training.service.ts]   ([buildTrainingTree], [flattenTree],
      [updateProgress], [moveTrainingItem], [getUserStats]),
    - [features/learning-tree/learning-tree.ts] ([onDrop], [isDescendant]),
    followed by the properties the specification states about them.

    Conventions.
    - The integer columns of the table ([estimated_duration_minutes], [level],
      [order_index]) are [Z].  [progress_percentage] and every derived average
      or ratio is an exact rational [Q]: the finite JavaScript numbers without
      rounding; NaN and the infinities are outside the model.
    - An optional field ([x?: T]) is an [option]; [undefined] is [None].
    - [Date] values are milliseconds as [Z]; [new Date()] is a parameter [now].
    - Objects that the code mutates through shared references (the items linked
      by [buildTrainingTree], the [TreeNode]s of the tree view) live in a store
      indexed by [ref]; an array of objects is a [list ref]. *)

From Stdlib Require Import QArith Qminmax ZArith Lia Ascii.
From stdpp Require Import gmap strings list sorting.

Local Open Scope Z_scope.
Set Warnings "-register-all".

(* ================================================================== *)
(** ** Enumerations *)

Inductive SkillCategory :=
  | TECHNICAL | LEADERSHIP | COMMUNICATION | PROBLEM_SOLVING
  | CREATIVITY | PROJECT_MANAGEMENT | COLLABORATION | LEARNING.

Inductive SkillType := HARD_SKILL | SOFT_SKILL.

Inductive DifficultyLevel := BEGINNER | INTERMEDIATE | ADVANCED | EXPERT.

Inductive TrainingStatus :=
  | NOT_STARTED | IN_PROGRESS | COMPLETED | PAUSED | ARCHIVED.

Inductive TrainingSource :=
  | MANUAL | ROADMAP_SH | SPECKIT | IMPORTED_CSV | IMPORTED_JSON.

#[global] Instance SkillType_eq_dec : EqDecision SkillType.
Proof. solve_decision. Defined.
#[global] Instance TrainingStatus_eq_dec : EqDecision TrainingStatus.
Proof. solve_decision. Defined.

Definition Date := Z.

(* ================================================================== *)
(** ** The scalar fields of a [TrainingItem] *)

Record ItemFields := mkFields {
  id : string;
  user_id : string;
  parent_id : option string;
  title : string;
  description : option string;
  category : SkillCategory;
  skill_type : SkillType;
  difficulty_level : DifficultyLevel;
  estimated_duration_minutes : Z;
  status : TrainingStatus;
  progress_percentage : Q;
  completed_at : option Date;
  last_practiced_at : option Date;
  source : TrainingSource;
  source_url : option string;
  tags : list string;
  created_at : Date;
  updated_at : Date;
  level : Z;
  order_index : Z
}.

(** A [TrainingItem] as a value: its fields and its [children] array.  The
    constructor always stores an array ([data.children || []]), so the
    [children?] of the class is never [undefined] on a constructed item. *)
Inductive TrainingItem :=
  Item (fields : ItemFields) (children : list TrainingItem).

Definition fields (t : TrainingItem) : ItemFields :=
  match t with Item f _ => f end.
Definition children (t : TrainingItem) : list TrainingItem :=
  match t with Item _ c => c end.

(** [Partial<ITrainingItem>]: every key may be absent. *)
Record PartialItem := mkPartial {
  p_id : option string;
  p_user_id : option string;
  p_parent_id : option string;
  p_title : option string;
  p_description : option string;
  p_category : option SkillCategory;
  p_skill_type : option SkillType;
  p_difficulty_level : option DifficultyLevel;
  p_estimated_duration_minutes : option Z;
  p_status : option TrainingStatus;
  p_progress_percentage : option Q;
  p_completed_at : option Date;
  p_last_practiced_at : option Date;
  p_source : option TrainingSource;
  p_source_url : option string;
  p_tags : option (list string);
  p_created_at : option Date;
  p_updated_at : option Date;
  p_children : option (list TrainingItem);
  p_level : option Z;
  p_order_index : option Z
}.

(** *** JavaScript [a || b] on the types that occur *)

Definition or_string (a : option string) (b : string) : string :=
  match a with
  | Some s => if String.eqb s "" then b else s
  | None => b
  end.

Definition or_Z (a : option Z) (b : Z) : Z :=
  match a with
  | Some z => if Z.eqb z 0 then b else z
  | None => b
  end.

Definition or_Q (a : option Q) (b : Q) : Q :=
  match a with
  | Some q => if Qeq_bool q 0 then b else q
  | None => b
  end.

(** Enum members are non-empty strings, arrays and dates are objects: all
    truthy when present. *)
Definition or_else {A} (a : option A) (b : A) : A :=
  match a with Some x => x | None => b end.

(** [if (s)] on an optional string. *)
Definition truthy (s : option string) : bool :=
  match s with
  | Some s => negb (String.eqb s "")
  | None => false
  end.

(* ================================================================== *)
(** ** class TrainingItem *)

(** [constructor(data)]; [generated] is what [generateId()] returns and [now]
    what [new Date()] returns. *)
Definition constructor (generated : string) (now : Date) (data : PartialItem)
  : TrainingItem :=
  Item {| id := or_string (p_id data) generated;
          user_id := or_string (p_user_id data) "";
          parent_id := p_parent_id data;
          title := or_string (p_title data) "";
          description := p_description data;
          category := or_else (p_category data) TECHNICAL;
          skill_type := or_else (p_skill_type data) HARD_SKILL;
          difficulty_level := or_else (p_difficulty_level data) BEGINNER;
          estimated_duration_minutes :=
            or_Z (p_estimated_duration_minutes data) 30;
          status := or_else (p_status data) NOT_STARTED;
          progress_percentage := or_Q (p_progress_percentage data) 0;
          completed_at := p_completed_at data;
          last_practiced_at := p_last_practiced_at data;
          source := or_else (p_source data) MANUAL;
          source_url := p_source_url data;
          tags := or_else (p_tags data) [];
          created_at := or_else (p_created_at data) now;
          updated_at := or_else (p_updated_at data) now;
          level := or_Z (p_level data) 0;
          order_index := or_Z (p_order_index data) 0 |}
       (or_else (p_children data) []).

(** [isCompleted()] *)
Definition isCompleted (f : ItemFields) : bool :=
  bool_decide (status f = COMPLETED) || Qle_bool 100 (progress_percentage f).

(** [canStartPracticing()] *)
Definition canStartPracticing (f : ItemFields) : bool :=
  negb (bool_decide (status f = COMPLETED))
  && negb (bool_decide (status f = ARCHIVED)).

(** [Math.max(0, Math.min(100, percentage))] *)
Definition clamp (percentage : Q) : Q := Qmax 0 (Qmin 100 percentage).

Definition Qlt_bool (a b : Q) : bool := negb (Qle_bool b a).

(** *** Field assignment [this.x = v] *)

Definition set_parent_id (v : option string) (this : ItemFields) : ItemFields :=
  {| id := id this; user_id := user_id this; parent_id := v;
     title := title this; description := description this;
     category := category this; skill_type := skill_type this;
     difficulty_level := difficulty_level this;
     estimated_duration_minutes := estimated_duration_minutes this;
     status := status this; progress_percentage := progress_percentage this;
     completed_at := completed_at this;
     last_practiced_at := last_practiced_at this; source := source this;
     source_url := source_url this; tags := tags this;
     created_at := created_at this; updated_at := updated_at this;
     level := level this; order_index := order_index this |}.

Definition set_status (v : TrainingStatus) (this : ItemFields) : ItemFields :=
  {| id := id this; user_id := user_id this; parent_id := parent_id this;
     title := title this; description := description this;
     category := category this; skill_type := skill_type this;
     difficulty_level := difficulty_level this;
     estimated_duration_minutes := estimated_duration_minutes this;
     status := v; progress_percentage := progress_percentage this;
     completed_at := completed_at this;
     last_practiced_at := last_practiced_at this; source := source this;
     source_url := source_url this; tags := tags this;
     created_at := created_at this; updated_at := updated_at this;
     level := level this; order_index := order_index this |}.

Definition set_progress_percentage (v : Q) (this : ItemFields) : ItemFields :=
  {| id := id this; user_id := user_id this; parent_id := parent_id this;
     title := title this; description := description this;
     category := category this; skill_type := skill_type this;
     difficulty_level := difficulty_level this;
     estimated_duration_minutes := estimated_duration_minutes this;
     status := status this; progress_percentage := v;
     completed_at := completed_at this;
     last_practiced_at := last_practiced_at this; source := source this;
     source_url := source_url this; tags := tags this;
     created_at := created_at this; updated_at := updated_at this;
     level := level this; order_index := order_index this |}.

Definition set_completed_at (v : option Date) (this : ItemFields) : ItemFields :=
  {| id := id this; user_id := user_id this; parent_id := parent_id this;
     title := title this; description := description this;
     category := category this; skill_type := skill_type this;
     difficulty_level := difficulty_level this;
     estimated_duration_minutes := estimated_duration_minutes this;
     status := status this; progress_percentage := progress_percentage this;
     completed_at := v; last_practiced_at := last_practiced_at this;
     source := source this; source_url := source_url this; tags := tags this;
     created_at := created_at this; updated_at := updated_at this;
     level := level this; order_index := order_index this |}.

Definition set_last_practiced_at (v : option Date) (this : ItemFields) : ItemFields :=
  {| id := id this; user_id := user_id this; parent_id := parent_id this;
     title := title this; description := description this;
     category := category this; skill_type := skill_type this;
     difficulty_level := difficulty_level this;
     estimated_duration_minutes := estimated_duration_minutes this;
     status := status this; progress_percentage := progress_percentage this;
     completed_at := completed_at this; last_practiced_at := v;
     source := source this; source_url := source_url this; tags := tags this;
     created_at := created_at this; updated_at := updated_at this;
     level := level this; order_index := order_index this |}.

Definition set_updated_at (v : Date) (this : ItemFields) : ItemFields :=
  {| id := id this; user_id := user_id this; parent_id := parent_id this;
     title := title this; description := description this;
     category := category this; skill_type := skill_type this;
     difficulty_level := difficulty_level this;
     estimated_duration_minutes := estimated_duration_minutes this;
     status := status this; progress_percentage := progress_percentage this;
     completed_at := completed_at this;
     last_practiced_at := last_practiced_at this; source := source this;
     source_url := source_url this; tags := tags this;
     created_at := created_at this; updated_at := v; level := level this;
     order_index := order_index this |}.

Definition set_level (v : Z) (this : ItemFields) : ItemFields :=
  {| id := id this; user_id := user_id this; parent_id := parent_id this;
     title := title this; description := description this;
     category := category this; skill_type := skill_type this;
     difficulty_level := difficulty_level this;
     estimated_duration_minutes := estimated_duration_minutes this;
     status := status this; progress_percentage := progress_percentage this;
     completed_at := completed_at this;
     last_practiced_at := last_practiced_at this; source := source this;
     source_url := source_url this; tags := tags this;
     created_at := created_at this; updated_at := updated_at this;
     level := v; order_index := order_index this |}.

Definition set_order_index (v : Z) (this : ItemFields) : ItemFields :=
  {| id := id this; user_id := user_id this; parent_id := parent_id this;
     title := title this; description := description this;
     category := category this; skill_type := skill_type this;
     difficulty_level := difficulty_level this;
     estimated_duration_minutes := estimated_duration_minutes this;
     status := status this; progress_percentage := progress_percentage this;
     completed_at := completed_at this;
     last_practiced_at := last_practiced_at this; source := source this;
     source_url := source_url this; tags := tags this;
     created_at := created_at this; updated_at := updated_at this;
     level := level this; order_index := v |}.

(** [updateProgress(percentage)] *)
Definition updateProgress (now : Date) (percentage : Q) (this : ItemFields)
  : ItemFields :=
  let this := set_progress_percentage (clamp percentage) this in
  let this := set_last_practiced_at (Some now) this in
  let this := set_updated_at now this in
  if Qle_bool 100 percentage && negb (bool_decide (status this = COMPLETED))
  then set_completed_at (Some now) (set_status COMPLETED this)
  else if Qlt_bool 0 percentage && bool_decide (status this = NOT_STARTED)
  then set_status IN_PROGRESS this
  else this.

(** [getTotalEstimatedTime()] *)
Fixpoint getTotalEstimatedTime (this : TrainingItem) : Z :=
  match this with
  | Item f cs =>
      estimated_duration_minutes f
      + foldl (fun sum child => sum + getTotalEstimatedTime child) 0 cs
  end.

(** [getOverallProgress()] *)
Fixpoint getOverallProgress (this : TrainingItem) : Q :=
  match this with
  | Item f cs =>
      match cs with
      | [] => progress_percentage f
      | _ =>
          let totalWeight := inject_Z (Z.of_nat (length cs) + 1) in
          let childrenProgress :=
            foldl (fun sum child => (sum + getOverallProgress child)%Q) 0%Q cs in
          ((progress_percentage f + childrenProgress) / totalWeight)%Q
      end
  end.

(** [addChild(child)]: the updated parent and the child as linked. *)
Definition addChild (child : TrainingItem) (this : TrainingItem)
  : TrainingItem :=
  match this, child with
  | Item f cs, Item cf ccs =>
      let cf := set_parent_id (Some (id f)) cf in
      let cf := set_level (level f + 1) cf in
      let cf := set_order_index (Z.of_nat (length cs)) cf in
      Item f (cs ++ [Item cf ccs])
  end.

(** [removeChild(childId)] *)
Definition removeChild (childId : string) (this : TrainingItem)
  : TrainingItem :=
  match this with
  | Item f cs =>
      let kept :=
        filter (fun child => negb (String.eqb (id (fields child)) childId)) cs in
      Item f (imap (fun index child =>
                      Item (set_order_index (Z.of_nat index) (fields child))
                           (children child)) kept)
  end.

(* ================================================================== *)
(** ** The backing table and [TrainingService]'s store-mediated operations *)

(** The [training_items] table: rows keyed by the primary key [id]. *)
Abbreviation table := (gmap string ItemFields).

(** The store's [update(id, partialFields)]: the keys present in the update
    overwrite the row's columns, the others keep their value (an [undefined]
    value is not transmitted).  No caller in the repository updates [id]. *)
Definition apply_updates (u : PartialItem) (row : ItemFields) : ItemFields :=
  {| id := id row;
     user_id := or_else (p_user_id u) (user_id row);
     parent_id := match p_parent_id u with Some s => Some s | None => parent_id row end;
     title := or_else (p_title u) (title row);
     description := match p_description u with Some s => Some s | None => description row end;
     category := or_else (p_category u) (category row);
     skill_type := or_else (p_skill_type u) (skill_type row);
     difficulty_level := or_else (p_difficulty_level u) (difficulty_level row);
     estimated_duration_minutes :=
       or_else (p_estimated_duration_minutes u) (estimated_duration_minutes row);
     status := or_else (p_status u) (status row);
     progress_percentage := or_else (p_progress_percentage u) (progress_percentage row);
     completed_at := match p_completed_at u with Some d => Some d | None => completed_at row end;
     last_practiced_at :=
       match p_last_practiced_at u with Some d => Some d | None => last_practiced_at row end;
     source := or_else (p_source u) (source row);
     source_url := match p_source_url u with Some s => Some s | None => source_url row end;
     tags := or_else (p_tags u) (tags row);
     created_at := or_else (p_created_at u) (created_at row);
     updated_at := or_else (p_updated_at u) (updated_at row);
     level := or_else (p_level u) (level row);
     order_index := or_else (p_order_index u) (order_index row) |}.

(** The empty update [{}] and the assignment of one key, [updates.x = v]. *)
Definition no_updates : PartialItem :=
  mkPartial None None None None None None None None None None None
            None None None None None None None None None None.

Definition key_parent_id (v : string) (u : PartialItem) : PartialItem :=
  {| p_id := p_id u; p_user_id := p_user_id u; p_parent_id := Some v;
     p_title := p_title u; p_description := p_description u;
     p_category := p_category u; p_skill_type := p_skill_type u;
     p_difficulty_level := p_difficulty_level u;
     p_estimated_duration_minutes := p_estimated_duration_minutes u;
     p_status := p_status u;
     p_progress_percentage := p_progress_percentage u;
     p_completed_at := p_completed_at u;
     p_last_practiced_at := p_last_practiced_at u; p_source := p_source u;
     p_source_url := p_source_url u; p_tags := p_tags u;
     p_created_at := p_created_at u; p_updated_at := p_updated_at u;
     p_children := p_children u; p_level := p_level u;
     p_order_index := p_order_index u |}.

Definition key_status (v : TrainingStatus) (u : PartialItem) : PartialItem :=
  {| p_id := p_id u; p_user_id := p_user_id u; p_parent_id := p_parent_id u;
     p_title := p_title u; p_description := p_description u;
     p_category := p_category u; p_skill_type := p_skill_type u;
     p_difficulty_level := p_difficulty_level u;
     p_estimated_duration_minutes := p_estimated_duration_minutes u;
     p_status := Some v; p_progress_percentage := p_progress_percentage u;
     p_completed_at := p_completed_at u;
     p_last_practiced_at := p_last_practiced_at u; p_source := p_source u;
     p_source_url := p_source_url u; p_tags := p_tags u;
     p_created_at := p_created_at u; p_updated_at := p_updated_at u;
     p_children := p_children u; p_level := p_level u;
     p_order_index := p_order_index u |}.

Definition key_progress_percentage (v : Q) (u : PartialItem) : PartialItem :=
  {| p_id := p_id u; p_user_id := p_user_id u; p_parent_id := p_parent_id u;
     p_title := p_title u; p_description := p_description u;
     p_category := p_category u; p_skill_type := p_skill_type u;
     p_difficulty_level := p_difficulty_level u;
     p_estimated_duration_minutes := p_estimated_duration_minutes u;
     p_status := p_status u; p_progress_percentage := Some v;
     p_completed_at := p_completed_at u;
     p_last_practiced_at := p_last_practiced_at u; p_source := p_source u;
     p_source_url := p_source_url u; p_tags := p_tags u;
     p_created_at := p_created_at u; p_updated_at := p_updated_at u;
     p_children := p_children u; p_level := p_level u;
     p_order_index := p_order_index u |}.

Definition key_completed_at (v : Date) (u : PartialItem) : PartialItem :=
  {| p_id := p_id u; p_user_id := p_user_id u; p_parent_id := p_parent_id u;
     p_title := p_title u; p_description := p_description u;
     p_category := p_category u; p_skill_type := p_skill_type u;
     p_difficulty_level := p_difficulty_level u;
     p_estimated_duration_minutes := p_estimated_duration_minutes u;
     p_status := p_status u;
     p_progress_percentage := p_progress_percentage u;
     p_completed_at := Some v; p_last_practiced_at := p_last_practiced_at u;
     p_source := p_source u; p_source_url := p_source_url u;
     p_tags := p_tags u; p_created_at := p_created_at u;
     p_updated_at := p_updated_at u; p_children := p_children u;
     p_level := p_level u; p_order_index := p_order_index u |}.

Definition key_last_practiced_at (v : Date) (u : PartialItem) : PartialItem :=
  {| p_id := p_id u; p_user_id := p_user_id u; p_parent_id := p_parent_id u;
     p_title := p_title u; p_description := p_description u;
     p_category := p_category u; p_skill_type := p_skill_type u;
     p_difficulty_level := p_difficulty_level u;
     p_estimated_duration_minutes := p_estimated_duration_minutes u;
     p_status := p_status u;
     p_progress_percentage := p_progress_percentage u;
     p_completed_at := p_completed_at u; p_last_practiced_at := Some v;
     p_source := p_source u; p_source_url := p_source_url u;
     p_tags := p_tags u; p_created_at := p_created_at u;
     p_updated_at := p_updated_at u; p_children := p_children u;
     p_level := p_level u; p_order_index := p_order_index u |}.

Definition key_updated_at (v : Date) (u : PartialItem) : PartialItem :=
  {| p_id := p_id u; p_user_id := p_user_id u; p_parent_id := p_parent_id u;
     p_title := p_title u; p_description := p_description u;
     p_category := p_category u; p_skill_type := p_skill_type u;
     p_difficulty_level := p_difficulty_level u;
     p_estimated_duration_minutes := p_estimated_duration_minutes u;
     p_status := p_status u;
     p_progress_percentage := p_progress_percentage u;
     p_completed_at := p_completed_at u;
     p_last_practiced_at := p_last_practiced_at u; p_source := p_source u;
     p_source_url := p_source_url u; p_tags := p_tags u;
     p_created_at := p_created_at u; p_updated_at := Some v;
     p_children := p_children u; p_level := p_level u;
     p_order_index := p_order_index u |}.

Definition key_level (v : Z) (u : PartialItem) : PartialItem :=
  {| p_id := p_id u; p_user_id := p_user_id u; p_parent_id := p_parent_id u;
     p_title := p_title u; p_description := p_description u;
     p_category := p_category u; p_skill_type := p_skill_type u;
     p_difficulty_level := p_difficulty_level u;
     p_estimated_duration_minutes := p_estimated_duration_minutes u;
     p_status := p_status u;
     p_progress_percentage := p_progress_percentage u;
     p_completed_at := p_completed_at u;
     p_last_practiced_at := p_last_practiced_at u; p_source := p_source u;
     p_source_url := p_source_url u; p_tags := p_tags u;
     p_created_at := p_created_at u; p_updated_at := p_updated_at u;
     p_children := p_children u; p_level := Some v;
     p_order_index := p_order_index u |}.

Definition key_order_index (v : Z) (u : PartialItem) : PartialItem :=
  {| p_id := p_id u; p_user_id := p_user_id u; p_parent_id := p_parent_id u;
     p_title := p_title u; p_description := p_description u;
     p_category := p_category u; p_skill_type := p_skill_type u;
     p_difficulty_level := p_difficulty_level u;
     p_estimated_duration_minutes := p_estimated_duration_minutes u;
     p_status := p_status u;
     p_progress_percentage := p_progress_percentage u;
     p_completed_at := p_completed_at u;
     p_last_practiced_at := p_last_practiced_at u; p_source := p_source u;
     p_source_url := p_source_url u; p_tags := p_tags u;
     p_created_at := p_created_at u; p_updated_at := p_updated_at u;
     p_children := p_children u; p_level := p_level u;
     p_order_index := Some v |}.

(** A row as the [ITrainingItem] the store returns (it has no [children]). *)
Definition of_row (row : ItemFields) : PartialItem :=
  {| p_id := Some (id row); p_user_id := Some (user_id row);
     p_parent_id := parent_id row; p_title := Some (title row);
     p_description := description row; p_category := Some (category row);
     p_skill_type := Some (skill_type row);
     p_difficulty_level := Some (difficulty_level row);
     p_estimated_duration_minutes := Some (estimated_duration_minutes row);
     p_status := Some (status row);
     p_progress_percentage := Some (progress_percentage row);
     p_completed_at := completed_at row;
     p_last_practiced_at := last_practiced_at row;
     p_source := Some (source row); p_source_url := source_url row;
     p_tags := Some (tags row); p_created_at := Some (created_at row);
     p_updated_at := Some (updated_at row); p_children := None;
     p_level := Some (level row); p_order_index := Some (order_index row) |}.

(** [SupabaseService.update]: adds [updated_at: new Date()] to the update and
    returns the single updated row, or fails when no row has this [id]. *)
Definition supabase_update (now : Date) (id_ : string) (updates : PartialItem)
    (db : table) : option (table * ItemFields) :=
  match db !! id_ with
  | Some row =>
      let row' := set_updated_at now (apply_updates updates row) in
      Some (<[id_ := row']> db, row')
  | None => None
  end.

(** [updateTrainingItem(id, updates)]: the new table and the emitted item
    ([null] after a failed update, which [catchError] turns into a value). *)
Definition updateTrainingItem (now : Date) (id_ : string) (updates : PartialItem)
    (db : table) : table * option TrainingItem :=
  match supabase_update now id_ updates db with
  | Some (db', row') => (db', Some (constructor "" now (of_row row')))
  | None => (db, None)
  end.

(** The [updates] object of [TrainingService.updateProgress]. *)
Definition updateProgress_updates (now : Date) (progressPercentage : Q)
  : PartialItem :=
  let updates :=
    key_updated_at now
      (key_last_practiced_at now
         (key_progress_percentage (clamp progressPercentage) no_updates)) in
  if Qle_bool 100 progressPercentage
  then key_completed_at now (key_status COMPLETED updates)
  else if Qlt_bool 0 progressPercentage
  then key_status IN_PROGRESS updates
  else updates.

(** [TrainingService.updateProgress(id, progressPercentage)] *)
Definition service_updateProgress (now : Date) (id_ : string)
    (progressPercentage : Q) (db : table) : table * option TrainingItem :=
  updateTrainingItem now id_ (updateProgress_updates now progressPercentage) db.

(** [moveTrainingItem(itemId, newParentId, newOrderIndex)]; [newParentId] is
    [string | null], and [newParentId || undefined] keeps only a non-empty
    string. *)
Definition moveTrainingItem (now : Date) (itemId : string)
    (newParentId : option string) (newOrderIndex : Z) (db : table)
  : table * option TrainingItem :=
  let updates :=
    key_updated_at now (key_order_index newOrderIndex no_updates) in
  let updates :=
    if truthy newParentId
    then match newParentId with
         | Some p => key_parent_id p updates
         | None => updates
         end
    else updates in
  updateTrainingItem now itemId updates db.

(* ================================================================== *)
(** ** The tree view: [TreeNode]s with parent pointers, [onDrop] *)

Abbreviation ref := nat.

Record TreeNode := mkTreeNode {
  item : ItemFields;
  isExpanded : bool;
  isEditing : bool;
  node_children : list ref;
  parent : option ref;
  depth : Z
}.

Record TreeState := mkTreeState {
  rootNodes : list ref;
  selectedNode : option ref;
  draggedNode : option ref;
  searchQuery : string;
  showCompleted : bool;
  filterByCategory : option SkillCategory
}.

(** How a call ends: it returns, or it throws an error of the given name. *)
Inductive Completion (A : Type) :=
  | Normal (result : A)
  | Throw (error : string).
Arguments Normal {A} result.
Arguments Throw {A} error.

Definition parent_of (nodes : list TreeNode) (n : ref) : option ref :=
  match nodes !! n with Some nd => parent nd | None => None end.

(** The [while (current)] loop of [isDescendant]; [None] when the walk does
    not end within [fuel] steps. *)
Fixpoint isDescendant_loop (fuel : nat) (nodes : list TreeNode)
    (current : option ref) (ancestor : ref) : option bool :=
  match current with
  | None => Some false
  | Some c =>
      if Nat.eqb c ancestor then Some true
      else match fuel with
           | O => None
           | S fuel' => isDescendant_loop fuel' nodes (parent_of nodes c) ancestor
           end
  end.

(** [isDescendant(node, ancestor)] *)
Definition isDescendant (fuel : nat) (nodes : list TreeNode)
    (node ancestor : ref) : option bool :=
  isDescendant_loop fuel nodes (parent_of nodes node) ancestor.

Definition set_draggedNode (d : option ref) (st : TreeState) : TreeState :=
  {| rootNodes := rootNodes st; selectedNode := selectedNode st;
     draggedNode := d; searchQuery := searchQuery st;
     showCompleted := showCompleted st;
     filterByCategory := filterByCategory st |}.

(** [onDrop(event, targetNode)]: the tree state and the table after the call.
    The function body has no [throw]; the update's [next] callback clears
    [draggedNode]. *)
Definition onDrop (fuel : nat) (now : Date) (nodes : list TreeNode)
    (targetNode : ref) (st : TreeState) (db : table)
  : option (Completion (TreeState * table)) :=
  match draggedNode st with
  | None => Some (Normal (st, db))
  | Some dragged =>
      if Nat.eqb dragged targetNode then Some (Normal (st, db))
      else
        match isDescendant fuel nodes targetNode dragged with
        | None => None
        | Some true => Some (Normal (st, db))
        | Some false =>
            match nodes !! dragged, nodes !! targetNode with
            | Some d, Some t =>
                let updates :=
                  key_updated_at now
                    (key_level (depth t + 1)
                       (key_parent_id (id (item t)) no_updates)) in
                let '(db', _) := updateTrainingItem now (id (item d)) updates db in
                Some (Normal (set_draggedNode None st, db'))
            | _, _ => Some (Normal (st, db))
            end
        end
  end.

(* ================================================================== *)
(** ** Items as shared objects: [buildTrainingTree] and [flattenTree]

    [buildTrainingTree] links the items it is given by pushing references
    into each other's [children] arrays and then sorts those arrays in place.
    An item object is a cell of the store; its [children] array holds
    references.  The only caller, [getTrainingItems], passes items freshly
    constructed from table rows, whose [children] arrays are empty. *)

Record Obj := mkObj {
  obj_fields : ItemFields;
  obj_children : list ref
}.

Abbreviation heap := (list Obj).

Definition allocate (items : list ItemFields) : heap :=
  (fun f => mkObj f []) <$> items.

Definition kids (h : heap) (x : ref) : list ref :=
  match h !! x with Some o => obj_children o | None => [] end.

Definition parent_id_of (h : heap) (x : ref) : option string :=
  match h !! x with Some o => parent_id (obj_fields o) | None => None end.

Definition order_index_of (h : heap) (x : ref) : Z :=
  match h !! x with Some o => order_index (obj_fields o) | None => 0 end.

(** [x.children = l] and [parent.children.push(item)] *)
Definition set_kids (x : ref) (l : list ref) (h : heap) : heap :=
  alter (fun o => mkObj (obj_fields o) l) x h.

Definition push_child (parent item : ref) (h : heap) : heap :=
  alter (fun o => mkObj (obj_fields o) (obj_children o ++ [item])) parent h.

(** [Array.prototype.sort(compare)]: the sort is stable, and with a consistent
    comparator every stable sort returns the same array; this is insertion
    from the right, an element going before the first one it does not exceed. *)
Fixpoint sort_insert {A} (compare : A → A → Z) (x : A) (l : list A) : list A :=
  match l with
  | [] => [x]
  | y :: l' =>
      if Z.leb (compare x y) 0 then x :: y :: l'
      else y :: sort_insert compare x l'
  end.

Definition array_sort {A} (compare : A → A → Z) (l : list A) : list A :=
  foldr (sort_insert compare) [] l.

(** [array.forEach(f)] for a callback that updates a state and may fail to
    return. *)
Fixpoint forEach {A S} (l : list A) (f : A → S → option S) (s : S) : option S :=
  match l with
  | [] => Some s
  | x :: l' =>
      match f x s with
      | Some s' => forEach l' f s'
      | None => None
      end
  end.

(** The first loop: [itemMap.set(item.id, item)]. *)
Definition build_itemMap (h : heap) (items : list ref) : gmap string ref :=
  foldl (fun itemMap item =>
           match h !! item with
           | Some o => <[id (obj_fields o) := item]> itemMap
           | None => itemMap
           end) ∅ items.

(** The second loop; the state is [rootItems] and the store. *)
Definition link_item (itemMap : gmap string ref) (m : list ref * heap)
    (item : ref) : list ref * heap :=
  let '(rootItems, h) := m in
  if truthy (parent_id_of h item) then
    match parent_id_of h item ≫= (fun pid => itemMap !! pid) with
    | Some parent => (rootItems, push_child parent item h)
    | None => (rootItems, h)
    end
  else (rootItems ++ [item], h).

Definition link_items (itemMap : gmap string ref) (h : heap)
    (items : list ref) : list ref * heap :=
  foldl (link_item itemMap) ([], h) items.

(** The arrays [sortItems] is called on: the local [rootItems], or the
    [children] array of an object. *)
Inductive array :=
  | RootItems
  | ChildrenOf (x : ref).

Definition read (a : array) (m : list ref * heap) : list ref :=
  match a with
  | RootItems => m.1
  | ChildrenOf x => kids m.2 x
  end.

Definition write (a : array) (l : list ref) (m : list ref * heap)
  : list ref * heap :=
  match a with
  | RootItems => (l, m.2)
  | ChildrenOf x => (m.1, set_kids x l m.2)
  end.

Definition by_order_index (h : heap) (a b : ref) : Z :=
  order_index_of h a - order_index_of h b.

(** [sortItems(itemsToSort)]: sorts the array in place, then visits the
    [children] array of each of its elements.  [None] when the recursion is
    deeper than [fuel]. *)
Fixpoint sortItems (fuel : nat) (itemsToSort : array) (m : list ref * heap)
  : option (list ref * heap) :=
  match fuel with
  | O => None
  | S fuel' =>
      let m := write itemsToSort
                 (array_sort (by_order_index m.2) (read itemsToSort m)) m in
      forEach (read itemsToSort m)
              (fun item m => sortItems fuel' (ChildrenOf item) m) m
  end.

(** [buildTrainingTree(items)]: the returned [rootItems] and the store. *)
Definition buildTrainingTree (fuel : nat) (items : list ItemFields)
  : option (list ref * heap) :=
  let h := allocate items in
  let refs := seq 0 (length items) in
  let itemMap := build_itemMap h refs in
  let m := link_items itemMap h refs in
  sortItems fuel RootItems m.

(** [addItems(itemsToAdd)] of [flattenTree], with the shared [result]. *)
Fixpoint addItems (fuel : nat) (h : heap) (itemsToAdd : list ref)
    (result : list ref) : option (list ref) :=
  match fuel with
  | O => None
  | S fuel' =>
      forEach itemsToAdd
              (fun item result =>
                 addItems fuel' h (kids h item) (result ++ [item]))
              result
  end.

(** [flattenTree(items)] *)
Definition flattenTree (fuel : nat) (h : heap) (items : list ref)
  : option (list ref) :=
  addItems fuel h items [].

(** [getTrainingItems(userId)] once the rows are fetched: every row goes
    through the constructor, then the tree is built. *)
Definition getTrainingItems (fuel : nat) (now : Date) (rows : list ItemFields)
  : option (list ref * heap) :=
  buildTrainingTree fuel
    ((fun row => fields (constructor "" now (of_row row))) <$> rows).

Record UserStats := mkUserStats {
  totalItems : nat;
  completedItems : nat;
  inProgressItems : nat;
  totalEstimatedHours : Q;
  hardSkillsCount : nat;
  softSkillsCount : nat;
  completionRate : Q
}.

Definition Qnat (n : nat) : Q := inject_Z (Z.of_nat n).

(** The body of the [map] callback of [getUserStats], after [flattenTree]. *)
Definition computeStats (flatItems : list ItemFields) : UserStats :=
  let completedItems := filter (fun item => isCompleted item = true) flatItems in
  let inProgressItems :=
    filter (fun item => status item = IN_PROGRESS) flatItems in
  let hardSkills := filter (fun item => skill_type item = HARD_SKILL) flatItems in
  let softSkills := filter (fun item => skill_type item = SOFT_SKILL) flatItems in
  {| totalItems := length flatItems;
     completedItems := length completedItems;
     inProgressItems := length inProgressItems;
     totalEstimatedHours :=
       foldl (fun total item =>
                (total + inject_Z (estimated_duration_minutes item) / 60)%Q)
             0%Q flatItems;
     hardSkillsCount := length hardSkills;
     softSkillsCount := length softSkills;
     completionRate :=
       if Nat.ltb 0 (length flatItems)
       then (Qnat (length completedItems) / Qnat (length flatItems) * 100)%Q
       else 0%Q |}.

Definition deref (h : heap) (l : list ref) : list ItemFields :=
  omap (fun x => obj_fields <$> h !! x) l.

(** [getUserStats(userId)] on the fetched rows. *)
Definition getUserStats (fuel : nat) (now : Date) (rows : list ItemFields)
  : option UserStats :=
  match getTrainingItems fuel now rows with
  | Some (items, h) =>
      match flattenTree fuel h items with
      | Some flatItems => Some (computeStats (deref h flatItems))
      | None => None
      end
  | None => None
  end.

(* ================================================================== *)
(** ** Vocabulary of the statements *)

(** The sum of a list of rationals, [Σ]. *)
Definition Qsum (l : list Q) : Q := foldr Qplus 0%Q l.

(** An item with settled fields, used in examples. *)
Definition sample (id_ : string) (parent_id_ : option string)
    (order_index_ : Z) : ItemFields :=
  {| id := id_; user_id := "u1"; parent_id := parent_id_; title := id_;
     description := None; category := TECHNICAL; skill_type := HARD_SKILL;
     difficulty_level := BEGINNER; estimated_duration_minutes := 30;
     status := NOT_STARTED; progress_percentage := 0%Q;
     completed_at := None; last_practiced_at := None; source := MANUAL;
     source_url := None; tags := []; created_at := 0; updated_at := 0;
     level := 0; order_index := order_index_ |}.

(** *** The parent relation that [buildTrainingTree] resolves

    Items are referred to by their position in the input.  [parentOf] is the
    lookup the second loop performs: the object that [itemMap] holds for a
    truthy [parent_id]. *)

Definition itemMap_of (items : list ItemFields) : gmap string ref :=
  build_itemMap (allocate items) (seq 0 (length items)).

Definition parentOf (items : list ItemFields) (i : ref) : option ref :=
  let h := allocate items in
  if truthy (parent_id_of h i)
  then parent_id_of h i ≫= (fun pid => itemMap_of items !! pid)
  else None.

(** An input item whose [parent_id] is absent or empty. *)
Definition is_root (items : list ItemFields) (i : ref) : bool :=
  bool_decide (i < length items)%nat
  && negb (truthy (parent_id_of (allocate items) i)).

(** The [k]-th ancestor of [i]. *)
Fixpoint walk (items : list ItemFields) (k : nat) (i : ref) : option ref :=
  match k with
  | O => Some i
  | S k' => parentOf items i ≫= walk items k'
  end.

(** [rooted items i d]: following parents from [i] reaches a root after [d]
    steps. *)
Inductive rooted (items : list ItemFields) : ref → nat → Prop :=
  | rooted_root i : is_root items i = true → rooted items i O
  | rooted_child i p d :
      parentOf items i = Some p → rooted items p d → rooted items i (S d).

(** Every non-empty [parent_id] is the [id] of an item of the collection. *)
Definition closed (items : list ItemFields) : Prop :=
  ∀ i f, items !! i = Some f → truthy (parent_id f) = true →
         ∃ j g, items !! j = Some g ∧ parent_id f = Some (id g).

(** No item is its own ancestor. *)
Definition acyclic (items : list ItemFields) : Prop :=
  ∀ i k, walk items (S k) i ≠ Some i.

(** [a] occurs before [b] in [l]. *)
Definition before {A} (a b : A) (l : list A) : Prop :=
  ∃ l1 l2 l3, l = l1 ++ a :: l2 ++ b :: l3.

(** The array [l] of items is in ascending [order_index]. *)
Definition ascending (h : heap) (l : list ref) : Prop :=
  Sorted Z.le (order_index_of h <$> l).

(** The nodes of the forest under the array [roots]. *)
Inductive in_forest (h : heap) (roots : list ref) : ref → Prop :=
  | in_forest_root x : x ∈ roots → in_forest h roots x
  | in_forest_child p c :
      in_forest h roots p → c ∈ kids h p → in_forest h roots c.

(** [Flat h l r]: [r] is the pre-order listing of the trees under [l]. *)
Inductive Flat (h : heap) : list ref → list ref → Prop :=
  | Flat_nil : Flat h [] []
  | Flat_cons x l rx rl :
      Flat h (kids h x) rx → Flat h l rl → Flat h (x :: l) (x :: rx ++ rl).

#[global] Instance array_eq_dec : EqDecision array.
Proof. solve_decision. Defined.

(** [desc items x y]: [x] is [y] or an ancestor of [y]. *)
Definition desc (items : list ItemFields) (x y : ref) : Prop :=
  ∃ k, walk items k y = Some x.

(** The store holds the input's fields, and [c] is in the [children] array of
    [p] exactly when the second loop resolved the parent of [c] to [p]. *)
Definition linked (items : list ItemFields) (m : list ref * heap) : Prop :=
  obj_fields <$> m.2 = items
  ∧ ∀ p c, c ∈ kids m.2 p ↔ parentOf items c = Some p.

(** What sorting in place preserves: the fields, the members of every array,
    and the arrays that are already in ascending order. *)
Definition same_items (m m' : list ref * heap) : Prop :=
  obj_fields <$> m'.2 = obj_fields <$> m.2
  ∧ (∀ a, read a m' ≡ₚ read a m)
  ∧ (∀ a, ascending m.2 (read a m) → ascending m'.2 (read a m')).

(** *** Vocabulary for the model methods *)

(** [every_node P t]: [P] holds of the fields of [t] and of all its
    descendants. *)
Fixpoint every_node (P : ItemFields → Prop) (t : TrainingItem) : Prop :=
  match t with
  | Item f cs => P f ∧ foldr (fun c rest => every_node P c ∧ rest) True cs
  end.

(** The children of an item carry the indices [0, 1, ...] as [order_index]. *)
Definition densely_indexed (cs : list TrainingItem) : Prop :=
  (order_index ∘ fields) <$> cs = Z.of_nat <$> seq 0 (length cs).

(* ================================================================== *)
(** ** class TeamComment *)

Inductive CommentType :=
  | GENERAL | FEEDBACK | QUESTION | SUGGESTION | CONCERN | APPROVAL | MILESTONE.

Inductive CommentVisibility := PRIVATE | TEAM | PUBLIC.

Record TeamComment := mkTeamComment {
  comment_id : string;
  training_item_id : option string;
  comment_user_id : option string;
  review_period_id : option string;
  author_id : string;
  content : string;
  comment_type : CommentType;
  visibility : CommentVisibility;
  parent_comment_id : option string;
  rating : option Z;
  mentioned_user_ids : list string;
  read_by : list string;
  is_private_note : bool;
  comment_created_at : Date;
  comment_updated_at : Date;
  is_archived : bool
}.

(** [array.includes(x)] on strings *)
Definition includes (x : string) (l : list string) : bool :=
  existsb (String.eqb x) l.




(** [isUnreadBy(userId)] *)
Definition isUnreadBy (userId : string) (this : TeamComment) : bool :=
  negb (includes userId (read_by this)).

Definition set_mentioned_user_ids (l : list string) (this : TeamComment)
  : TeamComment :=
  {| comment_id := comment_id this; training_item_id := training_item_id this;
     comment_user_id := comment_user_id this;
     review_period_id := review_period_id this; author_id := author_id this;
     content := content this; comment_type := comment_type this;
     visibility := visibility this;
     parent_comment_id := parent_comment_id this; rating := rating this;
     mentioned_user_ids := l; read_by := read_by this;
     is_private_note := is_private_note this;
     comment_created_at := comment_created_at this;
     comment_updated_at := comment_updated_at this;
     is_archived := is_archived this |}.

Definition set_read_by (l : list string) (this : TeamComment) : TeamComment :=
  {| comment_id := comment_id this; training_item_id := training_item_id this;
     comment_user_id := comment_user_id this;
     review_period_id := review_period_id this; author_id := author_id this;
     content := content this; comment_type := comment_type this;
     visibility := visibility this;
     parent_comment_id := parent_comment_id this; rating := rating this;
     mentioned_user_ids := mentioned_user_ids this; read_by := l;
     is_private_note := is_private_note this;
     comment_created_at := comment_created_at this;
     comment_updated_at := comment_updated_at this;
     is_archived := is_archived this |}.

(** [addMention(userId)] *)
Definition addMention (userId : string) (this : TeamComment) : TeamComment :=
  if negb (includes userId (mentioned_user_ids this))
  then set_mentioned_user_ids (mentioned_user_ids this ++ [userId]) this
  else this.

(** [markReadBy(userId)] *)
Definition markReadBy (userId : string) (this : TeamComment) : TeamComment :=
  if negb (includes userId (read_by this))
  then set_read_by (read_by this ++ [userId]) this
  else this.

(* ================================================================== *)
(** ** The tree view: [buildTreeStructure] *)

(** The node created for an item in the first loop. *)
Definition new_node (item_ : ItemFields) : TreeNode :=
  {| item := item_; isExpanded := false; isEditing := false;
     node_children := []; parent := None; depth := 0 |}.

(** The first loop: a node per item, [nodeMap.set(item.id, node)]. *)
Definition create_nodes (items : list ItemFields)
  : list TreeNode * gmap string ref :=
  foldl (fun '(nodes, nodeMap) item_ =>
           (nodes ++ [new_node item_], <[id item_ := length nodes]> nodeMap))
        ([], ∅) items.

Definition node_order_index (nodes : list TreeNode) (n : ref) : Z :=
  match nodes !! n with Some nd => order_index (item nd) | None => 0 end.

Definition by_item_order_index (nodes : list TreeNode) (a b : ref) : Z :=
  node_order_index nodes a - node_order_index nodes b.

Definition depth_of (nodes : list TreeNode) (n : ref) : Z :=
  match nodes !! n with Some nd => depth nd | None => 0 end.

(** [node.parent = parent; node.depth = d] *)
Definition set_parent_depth (p : ref) (d : Z) (nd : TreeNode) : TreeNode :=
  {| item := item nd; isExpanded := isExpanded nd; isEditing := isEditing nd;
     node_children := node_children nd; parent := Some p; depth := d |}.

Definition set_node_children (l : list ref) (nd : TreeNode) : TreeNode :=
  {| item := item nd; isExpanded := isExpanded nd; isEditing := isEditing nd;
     node_children := l; parent := parent nd; depth := depth nd |}.

(** The body of the second loop. *)
Definition link_node (nodeMap : gmap string ref)
    (st : list ref * list TreeNode) (item_ : ItemFields)
  : list ref * list TreeNode :=
  let '(rootNodes, nodes) := st in
  match nodeMap !! id item_ with
  | None => st
  | Some node =>
      if truthy (parent_id item_) then
        match parent_id item_ ≫= (fun pid => nodeMap !! pid) with
        | Some parent_ =>
            let nodes :=
              alter (set_parent_depth parent_ (depth_of nodes parent_ + 1))
                    node nodes in
            let nodes :=
              alter (fun nd =>
                       set_node_children
                         (array_sort (by_item_order_index nodes)
                            (node_children nd ++ [node])) nd)
                    parent_ nodes in
            (rootNodes, nodes)
        | None => st
        end
      else (rootNodes ++ [node], nodes)
  end.

(** [buildTreeStructure(items)]: the sorted [rootNodes] and the nodes. *)
Definition buildTreeStructure (items : list ItemFields)
  : list ref * list TreeNode :=
  let '(nodes, nodeMap) := create_nodes items in
  let '(rootNodes, nodes) := foldl (link_node nodeMap) ([], nodes) items in
  (array_sort (by_item_order_index nodes) rootNodes, nodes).

(** The ancestor [k] parent pointers above [n]. *)
Fixpoint climb (nodes : list TreeNode) (k : nat) (n : ref) : option ref :=
  match k with
  | O => Some n
  | S k' => parent_of nodes n ≫= climb nodes k'
  end.

(* ================================================================== *)
(** ** [importTrainingItems]: collecting the results of the creations

    Every [createTrainingItem] observable delivers one callback, [next] with
    an item or [null], or [error]; the callbacks arrive in any order. *)

Inductive ImportEvent :=
  | OnNext (index : nat) (result : option TrainingItem)
  | OnError (index : nat).

Record ImportState := mkImportState {
  results : list (option TrainingItem);
  completed : nat;
  emitted : list (list TrainingItem)
}.

(** [results[index] = result] on a JavaScript array: writing past the end
    leaves holes. *)
Definition array_set {A} (index : nat) (v : A) (l : list (option A))
  : list (option A) :=
  if Nat.ltb index (length l) then <[index := Some v]> l
  else l ++ replicate (index - length l) None ++ [Some v].

(** [results.filter((r) => r !== undefined)] *)
Definition defined {A} (l : list (option A)) : list A := omap (fun r => r) l.

(** One callback; [total] is [createObservables.length]. *)
Definition import_step (total : nat) (st : ImportState) (ev : ImportEvent)
  : ImportState :=
  let results' :=
    match ev with
    | OnNext index (Some result) => array_set index result (results st)
    | _ => results st
    end in
  let completed' := S (completed st) in
  {| results := results';
     completed := completed';
     emitted := if Nat.eqb completed' total
                then emitted st ++ [defined results']
                else emitted st |}.

(** The values [importTrainingItems(items)] has emitted after the callbacks
    [events], for [total] items. *)
Definition importTrainingItems (total : nat) (events : list ImportEvent)
  : list (list TrainingItem) :=
  emitted (foldl (import_step total) (mkImportState [] 0 []) events).

Definition event_index (ev : ImportEvent) : nat :=
  match ev with OnNext i _ => i | OnError i => i end.

Definition event_result (ev : ImportEvent) : option TrainingItem :=
  match ev with OnNext _ r => r | OnError _ => None end.

(* ================================================================== *)
(** ** [parseCSVLine]

    A line is processed one character at a time; [trim] stands for
    [String.prototype.trim]. *)

Definition quote : ascii := "034"%char.
Definition comma : ascii := ","%char.

Fixpoint parseCSVLine_loop (trim : string → string) (line : string)
    (result : list string) (current : string) (inQuotes : bool)
  : list string :=
  match line with
  | EmptyString => result ++ [trim current]
  | String char rest =>
      if Ascii.eqb char quote then
        parseCSVLine_loop trim rest result current (negb inQuotes)
      else if Ascii.eqb char comma && negb inQuotes then
        parseCSVLine_loop trim rest (result ++ [trim current]) "" inQuotes
      else
        parseCSVLine_loop trim rest result (current ++ String char "") inQuotes
  end.

Definition parseCSVLine (trim : string → string) (line : string)
  : list string :=
  parseCSVLine_loop trim line [] "" false.

(** [line.split(',')] *)
Fixpoint split_comma (line : string) (current : string) : list string :=
  match line with
  | EmptyString => [current]
  | String char rest =>
      if Ascii.eqb char comma then current :: split_comma rest ""
      else split_comma rest (current ++ String char "")
  end.

(** The number of quote characters of a line is even. *)
Fixpoint quotes_closed (line : string) (inQuotes : bool) : bool :=
  match line with
  | EmptyString => negb inQuotes
  | String char rest =>
      quotes_closed rest (if Ascii.eqb char quote then negb inQuotes else inQuotes)
  end.

Fixpoint has_char (c : ascii) (line : string) : bool :=
  match line with
  | EmptyString => false
  | String char rest => Ascii.eqb char c || has_char c rest
  end.

(** [trim] on ASCII white space, for examples. *)
Definition is_space (c : ascii) : bool :=
  let n := Ascii.nat_of_ascii c in
  (Nat.eqb n 32 || (Nat.leb 9 n && Nat.leb n 13))%nat.

Fixpoint trim_start (s : string) : string :=
  match s with
  | String c rest => if is_space c then trim_start rest else s
  | EmptyString => EmptyString
  end.

Fixpoint trim_end (s : string) : string :=
  match s with
  | String c rest =>
      match trim_end rest with
      | EmptyString => if is_space c then EmptyString else String c EmptyString
      | rest' => String c rest'
      end
  | EmptyString => EmptyString
  end.

Definition ascii_trim (s : string) : string := trim_end (trim_start s).

(** The item delivered for [index] by the callbacks [events], if any. *)
Definition result_at (events : list ImportEvent) (index : nat)
  : option TrainingItem :=
  foldl (fun acc ev =>
           match event_result ev with
           | Some v => if Nat.eqb (event_index ev) index then Some v else acc
           | None => acc
           end) None events.

(** [results[index]], [undefined] on a hole or past the end. *)
Definition array_get {A} (l : list (option A)) (index : nat) : option A :=
  match l !! index with Some (Some v) => Some v | _ => None end.

(** Every [children] array of the tree view is in ascending [order_index]. *)
Definition children_ascending_in (nodes : list TreeNode) : Prop :=
  ∀ r nd, nodes !! r = Some nd →
          Sorted Z.le (node_order_index nodes <$> node_children nd).

(** Between two states of [sortItems], every array is as it was or is its
    sorted version. *)
Definition sorted_or_same (m m' : list ref * heap) : Prop :=
  obj_fields <$> m'.2 = obj_fields <$> m.2
  ∧ ∀ a, read a m' = read a m
         ∨ read a m' = array_sort (by_order_index m.2) (read a m).

(* ================================================================== *)
(** * Properties *)

(* ================================================================== *)
(** ** Aggregation: [getOverallProgress], [getTotalEstimatedTime] *)

Lemma foldl_Qplus_shift {A} (g : A → Q) (l : list A) (a : Q) :
  (foldl (fun sum x => sum + g x) a l == a + Qsum (g <$> l))%Q.
Proof.
  revert a. induction l as [|x l IH]; intros a; simpl.
  - symmetry. apply Qplus_0_r.
  - rewrite IH. unfold Qsum at 2. simpl. fold (Qsum (g <$> l)).
    symmetry. apply Qplus_assoc.
Qed.

Lemma foldl_Zplus_shift {A} (g : A → Z) (l : list A) (a : Z) :
  foldl (fun sum x => sum + g x) a l = a + foldr Z.add 0 (g <$> l).
Proof.
  revert a. induction l as [|x l IH]; intros a; cbn; [lia|].
  rewrite IH. cbn. lia.
Qed.

Lemma getOverallProgress_leaf f :
  getOverallProgress (Item f []) = progress_percentage f.
Proof. reflexivity. Qed.

Lemma getOverallProgress_node f c cs :
  (getOverallProgress (Item f (c :: cs))
   == (progress_percentage f + Qsum (getOverallProgress <$> (c :: cs)))
      / (1 + Qnat (length (c :: cs))))%Q.
Proof.
  change (getOverallProgress (Item f (c :: cs))) with
    ((progress_percentage f
      + foldl (fun sum child => sum + getOverallProgress child) 0 (c :: cs))
     / inject_Z (Z.of_nat (length (c :: cs)) + 1))%Q.
  rewrite foldl_Qplus_shift, Qplus_0_l.
  assert (inject_Z (Z.of_nat (length (c :: cs)) + 1)
          == 1 + Qnat (length (c :: cs)))%Q as ->; [|reflexivity].
  unfold Qnat. rewrite inject_Z_plus. apply Qplus_comm.
Qed.

(** C4.  [getOverallProgress] of a node without children is its own
    [progress_percentage]; of a node with children it is
    (self + sum of the children's [getOverallProgress]) / (1 + number of
    children); a node at 100 with two children at 0 and 50 yields 50. *)
Theorem getOverallProgress_mean :
  (∀ f, getOverallProgress (Item f []) = progress_percentage f)
  ∧ (∀ f c cs,
       getOverallProgress (Item f (c :: cs))
       == (progress_percentage f + Qsum (getOverallProgress <$> (c :: cs)))
          / (1 + Qnat (length (c :: cs))))%Q
  ∧ (∀ f fa fb,
       getOverallProgress
         (Item (set_progress_percentage 100 f)
               [Item (set_progress_percentage 0 fa) [];
                Item (set_progress_percentage 50 fb) []])
       == 50)%Q.
Proof.
  split; [apply getOverallProgress_leaf|].
  split; [apply getOverallProgress_node|].
  intros f fa fb. reflexivity.
Qed.

(* ================================================================== *)
(** ** Progress updates *)

Lemma clamp_bounds p : (0 <= clamp p <= 100)%Q.
Proof.
  unfold clamp. split; [apply Q.le_max_l|].
  apply Q.max_lub; [discriminate|apply Q.le_min_l].
Qed.

Lemma Qlt_bool_iff a b : Qlt_bool a b = true ↔ (a < b)%Q.
Proof.
  unfold Qlt_bool. rewrite negb_true_iff. split.
  - intros H. apply Qnot_le_lt. intros Hle.
    apply Qle_bool_iff in Hle. congruence.
  - intros H. destruct (Qle_bool b a) eqn:E; [|done].
    apply Qle_bool_iff in E. exfalso. by apply (Qlt_not_le a b).
Qed.

Lemma updateProgress_progress now p this :
  progress_percentage (updateProgress now p this) = clamp p.
Proof. unfold updateProgress. repeat case_match; reflexivity. Qed.

Lemma updateProgress_last_practiced now p this :
  last_practiced_at (updateProgress now p this) = Some now.
Proof. unfold updateProgress. repeat case_match; reflexivity. Qed.

Lemma updateProgress_saturating now p this :
  (100 <= p)%Q →
  status (updateProgress now p this) = COMPLETED
  ∧ completed_at (updateProgress now p this)
    = if bool_decide (status this = COMPLETED)
      then completed_at this else Some now.
Proof.
  intros Hp. apply Qle_bool_iff in Hp. unfold updateProgress. simpl.
  rewrite Hp. simpl. case_bool_decide as Hs; simpl.
  - destruct (Qlt_bool 0 p); simpl; rewrite ?Hs; auto.
  - auto.
Qed.

Lemma updateProgress_zero now this :
  status (updateProgress now 0 this) = status this.
Proof. reflexivity. Qed.

(** What [TrainingService.updateProgress] writes to the row it finds. *)
Lemma service_updateProgress_row now id_ p (db : table) row :
  db !! id_ = Some row →
  ∃ row',
    (service_updateProgress now id_ p db).1 !! id_ = Some row'
    ∧ progress_percentage row' = clamp p
    ∧ last_practiced_at row' = Some now
    ∧ status row'
      = (if Qle_bool 100 p then COMPLETED
         else if Qlt_bool 0 p then IN_PROGRESS else status row)
    ∧ completed_at row'
      = (if Qle_bool 100 p then Some now else completed_at row).
Proof.
  intros Hrow.
  unfold service_updateProgress, updateTrainingItem, supabase_update.
  rewrite Hrow. simpl. rewrite lookup_insert_eq.
  eexists. split; [reflexivity|].
  unfold updateProgress_updates.
  destruct (Qle_bool 100 p), (Qlt_bool 0 p); simpl; auto.
Qed.

(** C5, the sentence as written fails on the model method: on an item that is
    already [COMPLETED] and has no [completed_at], a saturating update leaves
    [completed_at] unset. *)
Lemma updateProgress_completed_at_left_unset :
  let this := set_status COMPLETED (sample "a" None 0) in
  (100 <= 150)%Q
  ∧ status this = COMPLETED
  ∧ completed_at this = None
  ∧ completed_at (updateProgress 7 150 this) = None.
Proof. repeat split; discriminate. Qed.

(** C5 (amended).  [updateProgress] stores the percentage clamped to [0,100]
    and sets [last_practiced_at]; when the input is at least 100 the status
    is [COMPLETED] afterwards, and [completed_at] is set to the current time
    unless the item was already [COMPLETED], in which case the model method
    leaves [completed_at] as it was (the service always writes it).  So
    [updateProgress(item, 150)] on an item that is not yet completed gives
    progress 100, status [COMPLETED] and [completed_at] set, and
    [updateProgress(item, 0)] on a [NOT_STARTED] item leaves [NOT_STARTED]. *)
Theorem updateProgress_clamps_and_completes (now : Date) (p : Q)
    (this : ItemFields) :
  (progress_percentage (updateProgress now p this) = clamp p
   ∧ (0 <= clamp p <= 100)%Q
   ∧ last_practiced_at (updateProgress now p this) = Some now
   ∧ ((100 <= p)%Q →
      status (updateProgress now p this) = COMPLETED
      ∧ completed_at (updateProgress now p this)
        = if bool_decide (status this = COMPLETED)
          then completed_at this else Some now)
   ∧ (status this ≠ COMPLETED →
      progress_percentage (updateProgress now 150 this) = 100%Q
      ∧ status (updateProgress now 150 this) = COMPLETED
      ∧ completed_at (updateProgress now 150 this) = Some now)
   ∧ (status this = NOT_STARTED →
      status (updateProgress now 0 this) = NOT_STARTED))
  ∧ (∀ (db : table) id_,
       db !! id_ = Some this →
       ∃ row',
         (service_updateProgress now id_ p db).1 !! id_ = Some row'
         ∧ progress_percentage row' = clamp p
         ∧ last_practiced_at row' = Some now
         ∧ ((100 <= p)%Q →
            status row' = COMPLETED ∧ completed_at row' = Some now)
         ∧ (p = 0%Q → status row' = status this)).
Proof.
  split.
  - split; [apply updateProgress_progress|].
    split; [apply clamp_bounds|].
    split; [apply updateProgress_last_practiced|].
    split; [apply updateProgress_saturating|].
    split.
    + intros Hs. split; [apply updateProgress_progress|].
      destruct (updateProgress_saturating now 150 this) as [H1 H2];
        [discriminate|].
      split; [done|]. rewrite H2. by rewrite bool_decide_eq_false_2.
    + intros Hs. by rewrite updateProgress_zero.
  - intros db id_ Hrow.
    destruct (service_updateProgress_row now id_ p db this Hrow)
      as (row' & H1 & H2 & H3 & H4 & H5).
    exists row'. split; [done|]. split; [done|]. split; [done|]. split.
    + intros Hp. apply Qle_bool_iff in Hp. by rewrite H4, H5, Hp.
    + intros ->. by rewrite H4.
Qed.

Lemma updateProgress_clamps_and_completes_witness :
  let this := sample "a" None 0 in
  status this ≠ COMPLETED
  ∧ progress_percentage (updateProgress 7 150 this) = 100%Q
  ∧ status (updateProgress 7 150 this) = COMPLETED
  ∧ completed_at (updateProgress 7 150 this) = Some 7.
Proof.
  split; [discriminate|].
  apply (updateProgress_clamps_and_completes 7 150 (sample "a" None 0)).
  discriminate.
Defined.

(** The model method keeps the status of an item that has been started when
    the new percentage is strictly between 0 and 100. *)
Lemma updateProgress_keeps_status now p this :
  status this ≠ NOT_STARTED → (0 < p)%Q → (p < 100)%Q →
  status (updateProgress now p this) = status this.
Proof.
  intros Hs H0 H100. unfold updateProgress. simpl.
  assert (Qle_bool 100 p = false) as ->.
  { destruct (Qle_bool 100 p) eqn:E; [|done].
    apply Qle_bool_iff in E. exfalso. by apply (Qlt_not_le p 100). }
  simpl. rewrite (bool_decide_eq_false_2 _ Hs), andb_false_r. reflexivity.
Qed.

(** C6, the service path: [TrainingService.updateProgress] on a completed row
    with a percentage of 50 writes [IN_PROGRESS] over [COMPLETED] (and keeps
    [completed_at]); the model method on the same item keeps [COMPLETED]. *)
Theorem service_updateProgress_reverts_completed :
  let row :=
    set_completed_at (Some 3)
      (set_progress_percentage 100 (set_status COMPLETED (sample "a" None 0))) in
  let db : table := {[ "a" := row ]} in
  status row = COMPLETED
  ∧ (status <$> (service_updateProgress 7 "a" 50 db).1 !! "a") = Some IN_PROGRESS
  ∧ (completed_at <$> (service_updateProgress 7 "a" 50 db).1 !! "a")
    = Some (Some 3)
  ∧ status (updateProgress 7 50 row) = COMPLETED.
Proof. vm_compute. repeat split. Qed.

(* ================================================================== *)
(** ** The constructor's default duration *)

Lemma getTotalEstimatedTime_unfold f cs :
  getTotalEstimatedTime (Item f cs)
  = estimated_duration_minutes f
    + foldr Z.add 0 (getTotalEstimatedTime <$> cs).
Proof.
  change (getTotalEstimatedTime (Item f cs)) with
    (estimated_duration_minutes f
     + foldl (fun sum child => sum + getTotalEstimatedTime child) 0 cs).
  rewrite foldl_Zplus_shift. lia.
Qed.

Lemma constructor_duration generated now data :
  estimated_duration_minutes (fields (constructor generated now data))
  = or_Z (p_estimated_duration_minutes data) 30.
Proof. reflexivity. Qed.

Lemma constructor_duration_nonzero generated now data :
  estimated_duration_minutes (fields (constructor generated now data)) ≠ 0.
Proof.
  rewrite constructor_duration. unfold or_Z.
  destruct (p_estimated_duration_minutes data) as [z|]; [|done].
  destruct (Z.eqb_spec z 0); [done|auto].
Qed.

(* ================================================================== *)
(** ** Moving an item *)

(** C7, the sentence as written fails: dropping a node onto its own child is
    refused by a plain [return]; the call completes normally, nothing is
    thrown, and the state and the table are those it started from. *)
Lemma onDrop_onto_child_returns_normally :
  let nodes :=
    [ mkTreeNode (sample "a" None 0) false false [1%nat] None 0;
      mkTreeNode (sample "b" (Some "a") 0) false false [] (Some 0%nat) 1 ] in
  let st := mkTreeState [0%nat] None (Some 0%nat) "" true None in
  let db : table :=
    {[ "a" := sample "a" None 0; "b" := sample "b" (Some "a") 0 ]} in
  isDescendant 2 nodes 1 0 = Some true
  ∧ onDrop 2 7 nodes 1 st db = Some (Normal (st, db))
  ∧ onDrop 2 7 nodes 1 st db ≠ Some (Throw "InvalidMoveError").
Proof. repeat split. discriminate. Qed.

(** The service's [moveTrainingItem] validates nothing: asked to make an item
    its own parent, it writes the row. *)
Lemma moveTrainingItem_accepts_self_parent :
  let db : table := {[ "a" := sample "a" None 0 ]} in
  (parent_id <$> (moveTrainingItem 7 "a" (Some "a") 0 db).1 !! "a")
  = Some (Some "a").
Proof. vm_compute. reflexivity. Qed.

(** C7 (amended).  When the drop target is the dragged node itself or one of
    its descendants, [onDrop] returns normally without raising an error and
    performs no mutation: the tree state and every row of the table, hence
    every [parent_id], [order_index] and [level], are unchanged. *)
Theorem onDrop_rejects_cycle_silently (fuel : nat) (now : Date)
    (nodes : list TreeNode) (targetNode dragged : ref) (st : TreeState)
    (db : table) :
  draggedNode st = Some dragged →
  targetNode = dragged ∨ isDescendant fuel nodes targetNode dragged = Some true →
  onDrop fuel now nodes targetNode st db = Some (Normal (st, db)).
Proof.
  intros Hd Hcase. unfold onDrop. rewrite Hd.
  destruct (Nat.eqb_spec dragged targetNode) as [|Hne]; [done|].
  destruct Hcase as [->|Hdesc]; [done|]. by rewrite Hdesc.
Qed.

Lemma onDrop_rejects_cycle_silently_witness :
  let nodes :=
    [ mkTreeNode (sample "a" None 0) false false [1%nat] None 0;
      mkTreeNode (sample "b" (Some "a") 0) false false [2%nat] (Some 0%nat) 1;
      mkTreeNode (sample "c" (Some "b") 0) false false [] (Some 1%nat) 2 ] in
  let st := mkTreeState [0%nat] None (Some 0%nat) "" true None in
  onDrop 3 7 nodes 2 st ∅ = Some (Normal (st, ∅)).
Proof.
  apply (onDrop_rejects_cycle_silently 3 7 _ 2%nat 0%nat).
  - reflexivity.
  - right. reflexivity.
Defined.

(** [moveTrainingItem] never writes a [level]: each row keeps the one it had. *)
Lemma moveTrainingItem_level now itemId newParentId newOrderIndex (db : table) k :
  level <$> (moveTrainingItem now itemId newParentId newOrderIndex db).1 !! k
  = level <$> db !! k.
Proof.
  unfold moveTrainingItem, updateTrainingItem, supabase_update.
  destruct (db !! itemId) as [row|] eqn:Hrow; simpl; [|done].
  destruct (decide (itemId = k)) as [->|Hne].
  - rewrite lookup_insert_eq, Hrow. simpl.
    destruct (truthy newParentId), newParentId; reflexivity.
  - by rewrite lookup_insert_ne.
Qed.

(** [addChild] does maintain the depth of the child it links (and of
    nothing below it). *)
Lemma addChild_level f cs cf ccs :
  ∃ cf',
    addChild (Item cf ccs) (Item f cs) = Item f (cs ++ [Item cf' ccs])
    ∧ parent_id cf' = Some (id f)
    ∧ level cf' = level f + 1
    ∧ order_index cf' = Z.of_nat (length cs).
Proof. eexists. split; [reflexivity|]. by simpl. Qed.

(** C8, at a failing input: [a] (a root with child [c]) is moved under the
    root [b].  The row of [a] gets the new [parent_id] and [order_index], but
    its [level] stays 0 although its parent's level is 0, and the [level] of
    its child [c] stays 1. *)
Theorem moveTrainingItem_leaves_levels_stale :
  let db : table :=
    {[ "a" := sample "a" None 0;
       "b" := sample "b" None 1;
       "c" := set_level 1 (sample "c" (Some "a") 0) ]} in
  let db' := (moveTrainingItem 7 "a" (Some "b") 0 db).1 in
  (parent_id <$> db' !! "a") = Some (Some "b")
  ∧ (order_index <$> db' !! "a") = Some 0
  ∧ (level <$> db' !! "b") = Some 0
  ∧ (level <$> db' !! "a") = Some 0
  ∧ (level <$> db' !! "c") = Some 1.
Proof. vm_compute. repeat split. Qed.

(** The tree view's [onDrop] on the same tree writes [level] for the dragged
    row only, from the target's [depth]; the [level] of its child stays 1,
    and [order_index] is not written. *)
Lemma onDrop_leaves_descendant_levels_stale :
  let nodes :=
    [ mkTreeNode (sample "a" None 5) false false [2%nat] None 0;
      mkTreeNode (sample "b" None 1) false false [] None 0;
      mkTreeNode (set_level 1 (sample "c" (Some "a") 0)) false false []
                 (Some 0%nat) 1 ] in
  let st := mkTreeState [0%nat; 1%nat] None (Some 0%nat) "" true None in
  let db : table :=
    {[ "a" := sample "a" None 5;
       "b" := sample "b" None 1;
       "c" := set_level 1 (sample "c" (Some "a") 0) ]} in
  ∃ st' db',
    onDrop 3 7 nodes 1 st db = Some (Normal (st', db'))
    ∧ (parent_id <$> db' !! "a") = Some (Some "b")
    ∧ (level <$> db' !! "a") = Some 1
    ∧ (order_index <$> db' !! "a") = Some 5
    ∧ (level <$> db' !! "c") = Some 1.
Proof. do 2 eexists. split; [reflexivity|]. vm_compute. repeat split. Qed.

(* ================================================================== *)
(** ** [Array.prototype.sort] *)

Section array_sort.
Context {A : Type} (key : A → Z).
Let compare (a b : A) : Z := key a - key b.

Lemma sort_insert_perm x l : sort_insert compare x l ≡ₚ x :: l.
Proof.
  induction l as [|y l IH]; simpl; [done|].
  destruct (Z.leb (compare x y) 0); [done|].
  rewrite IH. apply perm_swap.
Qed.

Lemma array_sort_perm l : array_sort compare l ≡ₚ l.
Proof.
  induction l as [|x l IH]; simpl; [done|].
  fold (array_sort compare l). by rewrite sort_insert_perm, IH.
Qed.

Lemma sort_insert_HdRel z x l :
  z ≤ key x → HdRel Z.le z (key <$> l) →
  HdRel Z.le z (key <$> sort_insert compare x l).
Proof.
  intros Hx Hl. destruct l as [|y l]; simpl.
  - by constructor.
  - destruct (Z.leb (compare x y) 0); simpl; constructor; [done|].
    by inversion Hl.
Qed.

Lemma sort_insert_sorted x l :
  Sorted Z.le (key <$> l) → Sorted Z.le (key <$> sort_insert compare x l).
Proof.
  induction l as [|y l IH]; simpl; intros Hs.
  - repeat constructor.
  - destruct (Z.leb_spec (compare x y) 0) as [Hle|Hgt]; simpl.
    + constructor; [done|]. constructor. unfold compare in Hle. lia.
    + inversion Hs as [|? ? Hs' Hhd]; subst.
      constructor; [by apply IH|].
      apply sort_insert_HdRel; [unfold compare in Hgt; lia|done].
Qed.

Lemma array_sort_sorted l : Sorted Z.le (key <$> array_sort compare l).
Proof.
  induction l as [|x l IH]; simpl; [constructor|].
  by apply sort_insert_sorted.
Qed.
(** Stability: items with equal keys keep the order they had. *)
Lemma sort_insert_stable z x l :
filter (fun y => key y = z) (sort_insert compare x l)
= filter (fun y => key y = z) (x :: l).
Proof.
  induction l as [|y l IH]; simpl; [done|].
  destruct (Z.leb_spec (compare x y) 0) as [Hle|Hgt]; [done|].
  rewrite (filter_cons _ y), IH, !(filter_cons _ x), (filter_cons _ y).
  unfold compare in Hgt.
  destruct (decide (key y = z)), (decide (key x = z)); try done. lia.
Qed.

Lemma array_sort_stable z l :
filter (fun y => key y = z) (array_sort compare l)
= filter (fun y => key y = z) l.
Proof.
  induction l as [|x l IH]; simpl; [done|].
  fold (array_sort compare l).
  by rewrite sort_insert_stable, !(filter_cons _ x), IH.
Qed.
End array_sort.

(* ================================================================== *)
(** ** [forEach] with an invariant *)

Lemma forEach_inv {A S} (R : S → S → Prop) (Q : A → S → Prop)
    (l : list A) (f : A → S → option S) (s0 : S) :
  Reflexive R → Transitive R →
  (∀ x s s', Q x s → R s s' → Q x s') →
  (∀ x s, x ∈ l → R s0 s → ∃ s', f x s = Some s' ∧ R s s' ∧ Q x s') →
  ∃ s', forEach l f s0 = Some s' ∧ R s0 s' ∧ ∀ x, x ∈ l → Q x s'.
Proof.
  intros HR HT Hmono. revert s0.
  induction l as [|x l IH]; intros s0 Hstep; simpl.
  - exists s0. split; [done|]. split; [done|]. intros x Hx. by inversion Hx.
  - destruct (Hstep x s0) as (s1 & Hf & HR1 & HQ1); [left|done|].
    rewrite Hf.
    destruct (IH s1) as (s' & Hfe & HR' & HQ').
    { intros y s Hy Hs. apply Hstep; [by right|]. by etrans. }
    exists s'. split; [done|]. split; [by etrans|].
    intros y Hy. apply elem_of_cons in Hy as [->|Hy]; [|by apply HQ'].
    by eapply Hmono.
Qed.

(* ================================================================== *)
(** ** The store: reading and writing [children] arrays *)

Lemma parent_id_of_fields (h : heap) x :
  parent_id_of h x = (obj_fields <$> h) !! x ≫= parent_id.
Proof.
  unfold parent_id_of. rewrite list_lookup_fmap. by destruct (h !! x).
Qed.

Lemma order_index_of_fields (h h' : heap) :
  obj_fields <$> h = obj_fields <$> h' →
  ∀ x, order_index_of h x = order_index_of h' x.
Proof.
  intros Hf x. unfold order_index_of.
  assert ((obj_fields <$> h) !! x = (obj_fields <$> h') !! x) as Hx
    by by rewrite Hf.
  rewrite !list_lookup_fmap in Hx.
  destruct (h !! x), (h' !! x); simplify_eq/=; congruence.
Qed.

Lemma allocate_fields items : obj_fields <$> allocate items = items.
Proof.
  unfold allocate. induction items as [|f l IH]; [done|].
  cbn. by rewrite IH.
Qed.

Lemma kids_allocate items x : kids (allocate items) x = [].
Proof.
  unfold kids, allocate. rewrite list_lookup_fmap.
  by destruct (items !! x).
Qed.

Lemma fields_length (h : heap) items :
  obj_fields <$> h = items → length h = length items.
Proof. intros <-. by rewrite length_fmap. Qed.

Lemma alter_children_fields (g : Obj → list ref) x (h : heap) :
  obj_fields <$> alter (fun o => mkObj (obj_fields o) (g o)) x h
  = obj_fields <$> h.
Proof.
  apply list_eq. intros i. rewrite !list_lookup_fmap, list_lookup_alter.
  destruct (decide (x = i)) as [->|]; [|done]. by destruct (h !! i).
Qed.

Lemma set_kids_fields x l h : obj_fields <$> set_kids x l h = obj_fields <$> h.
Proof. apply (alter_children_fields (fun _ => l)). Qed.

Lemma push_child_fields p c h :
  obj_fields <$> push_child p c h = obj_fields <$> h.
Proof. apply (alter_children_fields (fun o => obj_children o ++ [c])). Qed.

Lemma kids_set_kids_eq x l h :
  (x < length h)%nat → kids (set_kids x l h) x = l.
Proof.
  intros Hx. unfold kids, set_kids. rewrite list_lookup_alter_eq.
  destruct (lookup_lt_is_Some_2 h x Hx) as [o ->]. done.
Qed.

Lemma kids_set_kids_ne x y l h : x ≠ y → kids (set_kids x l h) y = kids h y.
Proof.
  intros Hne. unfold kids, set_kids. by rewrite list_lookup_alter_ne.
Qed.

Lemma kids_out_of_range (h : heap) x : (length h ≤ x)%nat → kids h x = [].
Proof. intros Hx. unfold kids. by rewrite lookup_ge_None_2. Qed.

Lemma kids_push_child p c h y :
  (p < length h)%nat →
  kids (push_child p c h) y
  = if decide (y = p) then kids h y ++ [c] else kids h y.
Proof.
  intros Hp. unfold kids, push_child. destruct (decide (y = p)) as [->|Hne].
  - rewrite list_lookup_alter_eq.
    destruct (lookup_lt_is_Some_2 h p Hp) as [o ->]. done.
  - by rewrite list_lookup_alter_ne.
Qed.

(* ================================================================== *)
(** ** The first loop: [itemMap] *)

Lemma build_itemMap_lookup (h : heap) (l : list ref) key r :
  build_itemMap h l !! key = Some r →
  r ∈ l ∧ ∃ o, h !! r = Some o ∧ id (obj_fields o) = key.
Proof.
  unfold build_itemMap.
  assert (∀ acc : gmap string ref,
    foldl (fun itemMap item =>
             match h !! item with
             | Some o => <[id (obj_fields o) := item]> itemMap
             | None => itemMap
             end) acc l !! key = Some r →
    (r ∈ l ∧ ∃ o, h !! r = Some o ∧ id (obj_fields o) = key)
    ∨ acc !! key = Some r) as Hgen.
  { induction l as [|x l IH]; intros acc Hl; simpl in *; [by right|].
    destruct (IH _ Hl) as [[Hin Ho]|Hacc].
    - left. split; [by right|done].
    - destruct (h !! x) as [o|] eqn:Hx; [|by right].
      destruct (decide (id (obj_fields o) = key)) as [<-|Hne].
      + rewrite lookup_insert_eq in Hacc. simplify_eq.
        left. split; [by left|eauto].
      + rewrite lookup_insert_ne in Hacc by done. by right. }
  intros Hl. destruct (Hgen ∅ Hl) as [?|Hempty]; [done|].
  by rewrite lookup_empty in Hempty.
Qed.

Lemma build_itemMap_is_Some (h : heap) (l : list ref) r o :
  r ∈ l → h !! r = Some o →
  is_Some (build_itemMap h l !! id (obj_fields o)).
Proof.
  unfold build_itemMap. intros Hin Ho.
  assert (∀ acc : gmap string ref,
    r ∈ l ∨ is_Some (acc !! id (obj_fields o)) →
    is_Some (foldl (fun itemMap item =>
             match h !! item with
             | Some o => <[id (obj_fields o) := item]> itemMap
             | None => itemMap
             end) acc l !! id (obj_fields o))) as Hgen.
  { clear Hin. induction l as [|x l IH]; intros acc Hcase; simpl.
    - destruct Hcase as [Hin|?]; [by inversion Hin|done].
    - apply IH. destruct Hcase as [Hin|Hacc].
      + apply elem_of_cons in Hin as [->|Hin]; [|by left].
        right. rewrite Ho. rewrite lookup_insert_eq. eauto.
      + right. destruct (h !! x) as [o'|]; [|done].
        rewrite lookup_insert. case_decide; eauto. }
  apply Hgen. by left.
Qed.

(** *** [parentOf] on the input *)

Section parents.
Context (items : list ItemFields).
Let n := length items.

Lemma parent_id_of_allocate i :
  parent_id_of (allocate items) i = items !! i ≫= parent_id.
Proof. by rewrite parent_id_of_fields, allocate_fields. Qed.

Lemma parentOf_Some i p :
  parentOf items i = Some p → (i < n)%nat ∧ (p < n)%nat.
Proof.
  unfold parentOf. intros Hp.
  destruct (truthy (parent_id_of (allocate items) i)) eqn:Ht; [|done].
  rewrite parent_id_of_allocate in Hp, Ht.
  destruct (items !! i) as [f|] eqn:Hi; [|done].
  split; [by eapply lookup_lt_Some|].
  simpl in Hp. destruct (parent_id f) as [pid|]; [|done]. simpl in Hp.
  apply build_itemMap_lookup in Hp as [Hin _].
  apply elem_of_seq in Hin. subst n. lia.
Qed.

Lemma is_root_parentOf i : is_root items i = true → parentOf items i = None.
Proof.
  unfold is_root, parentOf. intros [_ Ht%negb_true_iff]%andb_true_iff.
  by rewrite Ht.
Qed.

Lemma is_root_lt i : is_root items i = true → (i < n)%nat.
Proof.
  unfold is_root. intros [Hlt%bool_decide_eq_true _]%andb_true_iff. done.
Qed.

(** What [closed] gives the second loop: a truthy [parent_id] resolves. *)
Lemma closed_parentOf i :
  closed items → (i < n)%nat →
  is_root items i = true ∨ ∃ p, parentOf items i = Some p.
Proof.
  intros Hc Hi. unfold is_root, parentOf.
  rewrite bool_decide_eq_true_2 by done. simpl.
  destruct (truthy (parent_id_of (allocate items) i)) eqn:Ht; [|by left].
  right. rewrite parent_id_of_allocate in *.
  destruct (lookup_lt_is_Some_2 items i Hi) as [f Hf].
  rewrite Hf in *. simpl in *.
  destruct (Hc i f Hf Ht) as (j & g & Hj & Hpid). rewrite Hpid. simpl.
  assert (allocate items !! j = Some (mkObj g [])) as Hobj.
  { unfold allocate. rewrite list_lookup_fmap, Hj. done. }
  assert (j ∈ seq 0 n) as Hin.
  { apply elem_of_seq. apply lookup_lt_Some in Hj. subst n. lia. }
  destruct (build_itemMap_is_Some (allocate items) (seq 0 n) j _ Hin Hobj)
    as [p Hp].
  exists p. exact Hp.
Qed.
End parents.

(* ================================================================== *)
(** ** The second loop: what is linked where *)

Section link.
Context (items : list ItemFields).
Let n := length items.

Lemma link_prefix k :
  (k ≤ n)%nat →
  let res :=
    foldl (link_item (itemMap_of items)) ([], allocate items) (seq 0 k) in
  obj_fields <$> res.2 = items
  ∧ res.1 = filter (fun c => is_root items c = true) (seq 0 k)
  ∧ ∀ p, kids res.2 p
         = filter (fun c => parentOf items c = Some p) (seq 0 k).
Proof.
  induction k as [|k IH]; intros Hk.
  - simpl. split; [apply allocate_fields|]. split; [done|].
    intros p. apply kids_allocate.
  - rewrite seq_S, foldl_app. simpl.
    destruct IH as (Hf & Hr & Hk'); [lia|].
    destruct (foldl (link_item (itemMap_of items)) ([], allocate items)
                (seq 0 k)) as [roots h]. simpl in *.
    assert (parent_id_of h k = parent_id_of (allocate items) k) as Hpid
      by by rewrite !parent_id_of_fields, Hf, allocate_fields.
    rewrite Hpid.
    assert (∀ (P : ref → Prop) `{∀ x, Decision (P x)},
              filter P (seq 0 k ++ [k])
              = filter P (seq 0 k) ++ (if decide (P k) then [k] else []))
      as Hsnoc.
    { intros P ?. by rewrite filter_app. }
    destruct (truthy (parent_id_of (allocate items) k)) eqn:Ht.
    + assert (is_root items k = false) as Hroot.
      { unfold is_root. rewrite Ht. apply andb_false_r. }
      assert (parentOf items k
              = parent_id_of (allocate items) k
                  ≫= (fun pid => itemMap_of items !! pid)) as Hpar.
      { unfold parentOf. by rewrite Ht. }
      rewrite <-Hpar.
      destruct (parentOf items k) as [parent|] eqn:Hparent; simpl.
      * split; [by rewrite push_child_fields|].
        split.
        { rewrite Hsnoc, Hroot. rewrite decide_False by done.
          by rewrite app_nil_r. }
        intros p. rewrite kids_push_child.
        2:{ rewrite (fields_length h items Hf).
            by apply (parentOf_Some items k parent). }
        rewrite Hsnoc, Hk'.
        destruct (decide (p = parent)) as [->|Hne].
        -- by rewrite decide_True.
        -- rewrite decide_False by congruence. by rewrite app_nil_r.
      * split; [done|]. split.
        { rewrite Hsnoc, Hroot. rewrite decide_False by done.
          by rewrite app_nil_r. }
        intros p. rewrite Hsnoc, Hk'. rewrite decide_False by congruence.
        by rewrite app_nil_r.
    + assert (is_root items k = true) as Hroot.
      { unfold is_root. rewrite Ht. rewrite bool_decide_eq_true_2; [done|].
        subst n. lia. }
      simpl. split; [done|]. split.
      { rewrite Hsnoc, Hr. by rewrite decide_True. }
      intros p. rewrite Hsnoc, Hk', (is_root_parentOf items k Hroot).
      rewrite decide_False by done. by rewrite app_nil_r.
Qed.

(** The state after both loops. *)
Lemma link_items_spec :
  let m := link_items (itemMap_of items) (allocate items) (seq 0 n) in
  obj_fields <$> m.2 = items
  ∧ m.1 = filter (fun c => is_root items c = true) (seq 0 n)
  ∧ ∀ p, kids m.2 p
         = filter (fun c => parentOf items c = Some p) (seq 0 n).
Proof. apply link_prefix. done. Qed.
End link.

(* ================================================================== *)
(** ** Depth of an item: a chain of parents cannot be longer than the input *)

Lemma pigeonhole (l : list nat) (n : nat) :
  NoDup l → (∀ x, x ∈ l → (x < n)%nat) → (length l ≤ n)%nat.
Proof.
  intros Hnd Hlt. rewrite <-(length_seq n 0).
  apply submseteq_length, NoDup_submseteq; [done|].
  intros x Hx. apply elem_of_seq. specialize (Hlt x Hx). lia.
Qed.

Section depth.
Context (items : list ItemFields).
Let n := length items.

Lemma rooted_index i d : rooted items i d → (i < n)%nat.
Proof.
  destruct 1 as [i Hr|i p d Hp _].
  - by apply is_root_lt.
  - by apply (parentOf_Some items i p).
Qed.

Lemma rooted_functional i d d' :
  rooted items i d → rooted items i d' → d = d'.
Proof.
  intros H. revert d'.
  induction H as [i Hr|i p d Hp _ IH]; intros d' H'.
  - destruct H' as [|i p' d' Hp' _]; [done|].
    rewrite (is_root_parentOf items i Hr) in Hp'. done.
  - destruct H' as [i Hr|i p' d' Hp' H'].
    + rewrite (is_root_parentOf items i Hr) in Hp. done.
    + f_equal. apply IH. congruence.
Qed.

(** The ancestors of a rooted item are pairwise distinct. *)
Lemma rooted_chain i d :
  rooted items i d →
  ∃ l : list ref,
    length l = S d ∧ NoDup l
    ∧ ∀ x, x ∈ l → ∃ e, (e ≤ d)%nat ∧ rooted items x e.
Proof.
  induction 1 as [i Hr|i p d Hp Hrp (l & Hlen & Hnd & Hl)].
  - exists [i]. split; [done|]. split; [apply NoDup_singleton|].
    intros x ->%list_elem_of_singleton. exists O. split; [done|].
    by constructor.
  - exists (i :: l). split; [simpl; by rewrite Hlen|]. split.
    + apply NoDup_cons. split; [|done]. intros Hin.
      destruct (Hl i Hin) as (e & He & Hre).
      assert (e = S d) by
        (eapply rooted_functional; [done|by econstructor]).
      lia.
    + intros x [->|Hx]%elem_of_cons.
      * exists (S d). split; [done|]. by econstructor.
      * destruct (Hl x Hx) as (e & He & Hre). exists e. split; [lia|done].
Qed.

Lemma rooted_depth_lt i d : rooted items i d → (d < n)%nat.
Proof.
  intros (l & Hlen & Hnd & Hl)%rooted_chain.
  assert (length l ≤ n)%nat; [|lia].
  apply pigeonhole; [done|]. intros x Hx.
  destruct (Hl x Hx) as (e & _ & Hre). by eapply rooted_index.
Qed.

Lemma walk_add a b i : walk items (a + b) i = walk items a i ≫= walk items b.
Proof.
  revert i. induction a as [|a IH]; intros i; simpl; [done|].
  destruct (parentOf items i) as [p|]; simpl; [apply IH|done].
Qed.

Lemma walk_index k i x :
  walk items k i = Some x → (i < n)%nat → (x < n)%nat.
Proof.
  revert i. induction k as [|k IH]; intros i; simpl.
  - by intros [= ->].
  - destruct (parentOf items i) as [p|] eqn:Hp; simpl; [|done].
    intros Hw _. apply (IH p Hw). by apply (parentOf_Some items i p).
Qed.

Lemma walk_rooted k i x e :
  walk items k i = Some x → rooted items x e → rooted items i (k + e).
Proof.
  revert i. induction k as [|k IH]; intros i; simpl.
  - by intros [= ->].
  - destruct (parentOf items i) as [p|] eqn:Hp; simpl; [|done].
    intros Hw Hr. econstructor; [done|]. by apply IH.
Qed.

(** The last step of a walk: the item reached has a child on the way. *)
Lemma walk_last k y x :
  walk items (S k) y = Some x →
  ∃ c, walk items k y = Some c ∧ parentOf items c = Some x.
Proof.
  replace (S k) with (k + 1)%nat by lia. rewrite walk_add.
  destruct (walk items k y) as [c|]; simpl; [|done].
  intros Hc. exists c. split; [done|].
  by destruct (parentOf items c).
Qed.

Lemma walk_prefix_defined k j i :
  (j ≤ k)%nat → is_Some (walk items k i) → is_Some (walk items j i).
Proof.
  intros Hjk. replace k with (j + (k - j))%nat by lia. rewrite walk_add.
  destruct (walk items j i); [eauto|]. by intros [? ?].
Qed.

Lemma acyclic_walk_inj a b i x :
  acyclic items →
  walk items a i = Some x → walk items b i = Some x → a = b.
Proof.
  intros Hac.
  assert (∀ a b, (a < b)%nat →
            walk items a i = Some x → walk items b i = Some x → False)
    as Hlt.
  { clear a b. intros a b Hab Ha Hb.
    replace b with (a + S (b - a - 1))%nat in Hb by lia.
    rewrite walk_add, Ha in Hb. simpl in Hb. by eapply Hac. }
  intros Ha Hb. destruct (lt_eq_lt_dec a b) as [[?|?]|?]; [|done|].
  - exfalso. by eapply (Hlt a b).
  - exfalso. by eapply (Hlt b a).
Qed.

(** In a closed collection a walk goes on until it meets a root. *)
Lemma closed_walk_or_rooted k i :
  closed items → (i < n)%nat →
  is_Some (walk items k i) ∨ ∃ d, (d < k)%nat ∧ rooted items i d.
Proof.
  intros Hc Hi. induction k as [|k [[x Hx]|(d & Hd & Hr)]].
  - left. simpl. eauto.
  - destruct (closed_parentOf items x Hc) as [Hroot|[p Hp]].
    + by eapply walk_index.
    + right. exists k. split; [lia|].
      replace k with (k + 0)%nat by lia.
      eapply walk_rooted; [done|]. by constructor.
    + left. replace (S k) with (k + 1)%nat by lia.
      rewrite walk_add, Hx. simpl. rewrite Hp. simpl. eauto.
  - right. exists d. split; [lia|done].
Qed.

(** Closed and acyclic: every item hangs under a root. *)
Lemma closed_acyclic_rooted i :
  closed items → acyclic items → (i < n)%nat → ∃ d, rooted items i d.
Proof.
  intros Hc Hac Hi.
  destruct (closed_walk_or_rooted n i Hc Hi) as [Hn|(d & _ & Hr)];
    [|by exists d].
  exfalso.
  set (l := (fun j => default O (walk items j i)) <$> seq 0 (S n)).
  assert (length l ≤ n)%nat as Hlen.
  { apply pigeonhole.
    - apply NoDup_fmap_2_strong; [|apply NoDup_seq].
      intros a b Ha%elem_of_seq Hb%elem_of_seq Hab.
      destruct (walk_prefix_defined n a i) as [xa Hxa]; [lia|done|].
      destruct (walk_prefix_defined n b i) as [xb Hxb]; [lia|done|].
      rewrite Hxa, Hxb in Hab. simpl in Hab. subst xb.
      by eapply acyclic_walk_inj.
    - intros x (j & -> & Hj%elem_of_seq)%list_elem_of_fmap.
      destruct (walk_prefix_defined n j i) as [xj Hxj]; [lia|done|].
      rewrite Hxj. simpl. by eapply walk_index. }
  unfold l in Hlen. rewrite length_fmap, length_seq in Hlen. lia.
Qed.
End depth.

(* ================================================================== *)
(** ** [sortItems]: what an in-place sort preserves *)

Lemma ascending_fields (h h' : heap) l :
  obj_fields <$> h' = obj_fields <$> h → ascending h l → ascending h' l.
Proof.
  intros Hf. unfold ascending.
  assert (order_index_of h' <$> l = order_index_of h <$> l) as ->; [|done].
  induction l as [|x l IH]; [done|]. cbn.
  by rewrite IH, (order_index_of_fields h' h Hf x).
Qed.

#[local] Instance same_items_refl : Reflexive same_items.
Proof. intros m. by repeat split. Qed.

#[local] Instance same_items_trans : Transitive same_items.
Proof.
  intros m1 m2 m3 (Hf & Hp & Hs) (Hf' & Hp' & Hs'). split; [congruence|].
  split; [intros a; by rewrite Hp', Hp|]. intros a Ha. by apply Hs', Hs.
Qed.

Lemma linked_same_items items m m' :
  linked items m → same_items m m' → linked items m'.
Proof.
  intros [Hf Hk] (Hf' & Hp & _). split; [congruence|].
  intros p c. rewrite <-Hk.
  specialize (Hp (ChildrenOf p)). simpl in Hp. by rewrite Hp.
Qed.

Lemma read_write_sorted a (m : list ref * heap) :
  read a (write a (array_sort (by_order_index m.2) (read a m)) m)
  = array_sort (by_order_index m.2) (read a m).
Proof.
  destruct a as [|x]; simpl; [done|].
  destruct (decide (x < length m.2)%nat) as [Hx|Hx].
  - by apply kids_set_kids_eq.
  - rewrite !kids_out_of_range; [done|lia|].
    unfold set_kids. rewrite length_alter. lia.
Qed.

Lemma read_write_other a b l (m : list ref * heap) :
  a ≠ b → read b (write a l m) = read b m.
Proof.
  destruct a as [|x], b as [|y]; simpl; try done.
  intros Hne. apply kids_set_kids_ne. congruence.
Qed.

Lemma write_fields a l (m : list ref * heap) :
  obj_fields <$> (write a l m).2 = obj_fields <$> m.2.
Proof. destruct a; simpl; [done|apply set_kids_fields]. Qed.

(** The first statement of [sortItems]. *)
Lemma write_sorted a (m : list ref * heap) :
  let m' := write a (array_sort (by_order_index m.2) (read a m)) m in
  same_items m m' ∧ ascending m'.2 (read a m').
Proof.
  simpl. split; [split; [apply write_fields|split]|].
  - intros b. destruct (decide (a = b)) as [<-|Hne].
    + rewrite read_write_sorted. apply array_sort_perm.
    + by rewrite read_write_other.
  - intros b Hb. destruct (decide (a = b)) as [<-|Hne].
    + rewrite read_write_sorted.
      apply (ascending_fields m.2); [apply write_fields|].
      apply array_sort_sorted.
    + rewrite read_write_other by done.
      apply (ascending_fields m.2); [apply write_fields|done].
  - rewrite read_write_sorted.
    apply (ascending_fields m.2); [apply write_fields|].
    apply array_sort_sorted.
Qed.

Section sortItems.
Context (items : list ItemFields).
Let n := length items.

Lemma desc_refl x : desc items x x.
Proof. by exists O. Qed.

Lemma desc_child x c y :
  parentOf items c = Some x → desc items c y → desc items x y.
Proof.
  intros Hc [k Hk]. exists (k + 1)%nat. rewrite walk_add, Hk. simpl.
  by rewrite Hc.
Qed.

(** A proper descendant lies under a child. *)
Lemma desc_inv x y :
  desc items x y →
  y = x ∨ ∃ c, parentOf items c = Some x ∧ desc items c y.
Proof.
  intros [[|k] Hk].
  - left. simpl in Hk. congruence.
  - right. apply walk_last in Hk as (c & Hc & Hp).
    exists c. split; [done|]. by exists k.
Qed.

(** [sortItems] returns when the items of the array hang [d] levels under
    a root and [fuel] covers the levels below; it keeps the items of every
    array, and leaves in ascending order the array itself and the
    [children] of everything under it. *)
Lemma sortItems_spec fuel :
  ∀ d a m,
    linked items m →
    (∀ x, x ∈ read a m → rooted items x d) →
    (d ≤ n)%nat → (n + 1 ≤ fuel + d)%nat →
    ∃ m', sortItems fuel a m = Some m'
          ∧ same_items m m'
          ∧ ascending m'.2 (read a m')
          ∧ ∀ x, x ∈ read a m →
              ∀ y, desc items x y → ascending m'.2 (kids m'.2 y).
Proof.
  induction fuel as [|fuel IH]; intros d a m Hl Hd Hdn Hfuel; [lia|].
  simpl.
  destruct (write_sorted a m) as [Hsame1 Hasc1].
  set (m1 := write a (array_sort (by_order_index m.2) (read a m)) m) in *.
  assert (linked items m1) as Hl1 by by eapply linked_same_items.
  assert (∀ x, x ∈ read a m1 → rooted items x d) as Hd1.
  { intros x Hx. apply Hd.
    destruct Hsame1 as (_ & Hp & _). by rewrite <-(Hp a). }
  destruct (forEach_inv same_items
              (fun x m' => ∀ y, desc items x y → ascending m'.2 (kids m'.2 y))
              (read a m1)
              (fun item m => sortItems fuel (ChildrenOf item) m) m1)
    as (m' & Hrun & Hsame' & Hpost).
  - apply _.
  - apply _.
  - intros x s s' HQ (_ & _ & Hs) y Hy.
    apply (Hs (ChildrenOf y)). by apply HQ.
  - intros x s Hx Hs.
    assert (linked items s) as Hls by by eapply linked_same_items.
    assert (rooted items x d) as Hrx by by apply Hd1.
    destruct (IH (S d) (ChildrenOf x) s) as (s' & Hrun & Hsame & Hasc & Hsub).
    + done.
    + intros c Hc. simpl in Hc. econstructor; [|done].
      by apply Hls.
    + apply rooted_depth_lt in Hrx. subst n. lia.
    + lia.
    + exists s'. split; [done|]. split; [done|].
      intros y [->|(c & Hc & Hy)]%desc_inv; [done|].
      apply (Hsub c); [|done]. simpl. by apply Hls.
  - exists m'. split; [done|]. split; [by etrans|]. split.
    + destruct Hsame' as (_ & _ & Hs). by apply (Hs a).
    + intros x Hx. apply Hpost.
      destruct Hsame1 as (_ & Hp & _). by rewrite (Hp a).
Qed.
End sortItems.

(* ================================================================== *)
(** ** [buildTrainingTree] *)

Section buildTrainingTree.
Context (items : list ItemFields).
Let n := length items.

Lemma desc_step x p c :
  parentOf items c = Some p → desc items x p → desc items x c.
Proof. intros Hc [k Hk]. exists (S k). simpl. by rewrite Hc. Qed.

Lemma linked_link_items :
  linked items (link_items (itemMap_of items) (allocate items) (seq 0 n)).
Proof.
  destruct (link_items_spec items) as (Hf & _ & Hk). split; [done|].
  intros p c. fold n in Hk. rewrite Hk, list_elem_of_filter, elem_of_seq.
  split; [by intros [? _]|]. intros Hp. split; [done|].
  apply parentOf_Some in Hp. fold n in Hp. lia.
Qed.

(** [buildTrainingTree] returns on every input, given fuel for one level
    more than there are items. *)
Lemma buildTrainingTree_spec extra :
  ∃ roots h,
    buildTrainingTree (S n + extra) items = Some (roots, h)
    ∧ linked items (roots, h)
    ∧ roots ≡ₚ filter (fun c => is_root items c = true) (seq 0 n)
    ∧ (∀ p, kids h p
            ≡ₚ filter (fun c => parentOf items c = Some p) (seq 0 n))
    ∧ ascending h roots
    ∧ ∀ x, x ∈ roots → ∀ y, desc items x y → ascending h (kids h y).
Proof.
  unfold buildTrainingTree. fold n. fold (itemMap_of items).
  pose proof linked_link_items as Hl.
  destruct (link_items_spec items) as (_ & Hr & Hk). fold n in Hr, Hk.
  set (m := link_items (itemMap_of items) (allocate items) (seq 0 n)) in *.
  destruct (sortItems_spec items (S n + extra) O RootItems m)
    as ([roots h] & Hrun & Hsame & Hasc & Hsub).
  - done.
  - intros x Hx. simpl in Hx. rewrite Hr in Hx.
    apply list_elem_of_filter in Hx as [Hx _]. by constructor.
  - lia.
  - fold n. lia.
  - exists roots, h. split; [done|].
    split; [by eapply linked_same_items|].
    destruct Hsame as (_ & Hp & _).
    split; [by rewrite <-Hr; apply (Hp RootItems)|].
    split; [intros p; rewrite <-Hk; apply (Hp (ChildrenOf p))|].
    split; [done|].
    intros x Hx. apply Hsub. simpl.
    specialize (Hp RootItems). simpl in Hp. by rewrite <-Hp.
Qed.

Lemma in_forest_desc roots h x :
  linked items (roots, h) → in_forest h roots x →
  ∃ r, r ∈ roots ∧ desc items r x.
Proof.
  intros [_ Hk]. induction 1 as [x Hx|p c _ (r & Hr & Hd) Hc].
  - exists x. split; [done|]. by exists O.
  - exists r. split; [done|]. eapply desc_step; [|done]. by apply Hk.
Qed.
End buildTrainingTree.

(** C3.  On every input, [buildTrainingTree] returns, and in the forest it
    returns the root list and the [children] list of every node, at every
    depth, are in ascending [order_index]. *)
Theorem buildTrainingTree_sorted (items : list ItemFields) (extra : nat) :
  ∃ roots h,
    buildTrainingTree (S (length items) + extra) items = Some (roots, h)
    ∧ ascending h roots
    ∧ ∀ x, in_forest h roots x → ascending h (kids h x).
Proof.
  destruct (buildTrainingTree_spec items extra)
    as (roots & h & Hrun & Hl & _ & _ & Hasc & Hsub).
  exists roots, h. split; [done|]. split; [done|].
  intros x (r & Hr & Hd)%(in_forest_desc items); [|done].
  by apply (Hsub r).
Qed.

(* ================================================================== *)
(** ** Items whose parent is not in the collection *)

Lemma dangling_parentOf items i f :
  items !! i = Some f →
  truthy (parent_id f) = true →
  (∀ j g, items !! j = Some g → parent_id f ≠ Some (id g)) →
  is_root items i = false ∧ parentOf items i = None.
Proof.
  intros Hi Ht Hno. unfold is_root, parentOf.
  rewrite parent_id_of_allocate, Hi. simpl. rewrite Ht.
  split; [apply andb_false_r|].
  destruct (parent_id f) as [pid|] eqn:Hpid; [|done]. simpl.
  destruct (itemMap_of items !! pid) as [r|] eqn:Hr; [|done].
  apply build_itemMap_lookup in Hr as (_ & o & Ho & Hid).
  unfold allocate in Ho. rewrite list_lookup_fmap in Ho.
  destruct (items !! r) as [g|] eqn:Hg; [|done]. simplify_eq/=.
  by destruct (Hno r g Hg).
Qed.

(** C2, the sentence as written fails: an item whose [parent_id] names no
    item of the collection is not returned as a root; the forest is empty. *)
Lemma buildTrainingTree_drops_dangling_item :
  let items := [sample "x" (Some "ghost") 0] in
  buildTrainingTree 2 items = Some ([], [mkObj (sample "x" (Some "ghost") 0) []])
  ∧ flattenTree 2 [mkObj (sample "x" (Some "ghost") 0) []] [] = Some [].
Proof. vm_compute. split; reflexivity. Qed.

(** C2 (amended).  An item whose non-empty [parent_id] is the [id] of no item
    of the collection is left out of the result of [buildTrainingTree]: it
    is not in the root list, it is in the [children] of no object, and it is
    not a node of the returned forest. *)
Theorem buildTrainingTree_omits_dangling (items : list ItemFields)
    (extra : nat) (i : ref) (f : ItemFields) :
  items !! i = Some f →
  truthy (parent_id f) = true →
  (∀ j g, items !! j = Some g → parent_id f ≠ Some (id g)) →
  ∃ roots h,
    buildTrainingTree (S (length items) + extra) items = Some (roots, h)
    ∧ (i ∉ roots)
    ∧ (∀ p, i ∉ kids h p)
    ∧ ¬ in_forest h roots i.
Proof.
  intros Hi Ht Hno.
  destruct (dangling_parentOf items i f Hi Ht Hno) as [Hroot Hpar].
  destruct (buildTrainingTree_spec items extra)
    as (roots & h & Hrun & [_ Hk] & Hr & _).
  exists roots, h. split; [done|].
  assert (i ∉ roots) as Hnr.
  { rewrite Hr. intros [Hri _]%list_elem_of_filter. congruence. }
  assert (∀ p, i ∉ kids h p) as Hnk.
  { intros p Hin%Hk. congruence. }
  split; [done|]. split; [done|].
  intros Hin. destruct Hin as [x Hx|p c _ Hc]; [done|by apply (Hnk p)].
Qed.

Lemma buildTrainingTree_omits_dangling_witness :
  let items := [sample "a" None 0; sample "x" (Some "ghost") 1] in
  let x : ref := 1%nat in
  ∃ roots h,
    buildTrainingTree 3 items = Some (roots, h)
    ∧ (x ∉ roots)
    ∧ (∀ p, x ∉ kids h p)
    ∧ ¬ in_forest h roots x.
Proof.
  apply (buildTrainingTree_omits_dangling
           [sample "a" None 0; sample "x" (Some "ghost") 1] 0 1
           (sample "x" (Some "ghost") 1)).
  - reflexivity.
  - reflexivity.
  - intros [|[|j]] g [= <-]; discriminate.
Defined.

(* ================================================================== *)
(** ** [flattenTree] *)

Lemma before_app_l {A} (a b : A) l k : before a b l → before a b (l ++ k).
Proof.
  intros (l1 & l2 & l3 & ->). exists l1, l2, (l3 ++ k).
  by rewrite <-!app_assoc, <-!app_comm_cons, <-!app_assoc.
Qed.

Lemma before_app_r {A} (a b : A) l k : before a b k → before a b (l ++ k).
Proof.
  intros (l1 & l2 & l3 & ->). exists (l ++ l1), l2, l3.
  by rewrite <-!app_assoc.
Qed.

Lemma before_cons {A} (a b x : A) l : before a b l → before a b (x :: l).
Proof. apply (before_app_r a b [x]). Qed.

Lemma before_head {A} (a b : A) l : b ∈ l → before a b (a :: l).
Proof.
  intros (l2 & l3 & ->)%list_elem_of_split. by exists [], l2, l3.
Qed.

Section flattenTree.
Context (items : list ItemFields) (r0 : list ref) (h : heap).
Context (Hlinked : linked items (r0, h)).
Let n := length items.

Lemma kids_parentOf p c : c ∈ kids h p ↔ parentOf items c = Some p.
Proof. destruct Hlinked as [_ Hk]. apply Hk. Qed.

(** [addItems] returns, and appends to [result] a pre-order listing. *)
Lemma addItems_spec fuel :
  ∀ d l acc,
    (∀ x, x ∈ l → rooted items x d) →
    (d ≤ n)%nat → (n + 1 ≤ fuel + d)%nat →
    ∃ r, addItems fuel h l acc = Some (acc ++ r) ∧ Flat h l r.
Proof.
  induction fuel as [|fuel IH]; intros d l acc Hd Hdn Hfuel; [lia|].
  simpl. revert acc. induction l as [|x l IHl]; intros acc; simpl.
  - exists []. split; [by rewrite app_nil_r|constructor].
  - assert (rooted items x d) as Hx by (apply Hd; by left).
    destruct (IH (S d) (kids h x) (acc ++ [x])) as (rx & -> & Hrx).
    { intros c Hc%kids_parentOf. by econstructor. }
    { apply rooted_depth_lt in Hx. subst n. lia. }
    { lia. }
    destruct (IHl (fun y Hy => Hd y (list_elem_of_further _ _ _ Hy))
                ((acc ++ [x]) ++ rx)) as (rl & -> & Hrl).
    exists (x :: rx ++ rl). split; [|by constructor].
    by rewrite <-!app_assoc.
Qed.

Lemma Flat_heads l r : Flat h l r → ∀ x, x ∈ l → x ∈ r.
Proof.
  induction 1 as [|x l rx rl _ _ _ IH]; intros y Hy; [done|].
  apply elem_of_cons in Hy as [->|Hy]; [by left|].
  right. apply elem_of_app. right. by apply IH.
Qed.

(** Everything listed is a root of the listing or lies under one. *)
Lemma Flat_desc l r : Flat h l r → ∀ y, y ∈ r → ∃ x, x ∈ l ∧ desc items x y.
Proof.
  induction 1 as [|x l rx rl _ IHx _ IHl]; intros y Hy; [by inversion Hy|].
  apply elem_of_cons in Hy as [->|[Hy|Hy]%elem_of_app].
  - exists x. split; [by left|apply desc_refl].
  - destruct (IHx y Hy) as (c & Hc%kids_parentOf & Hd).
    exists x. split; [by left|]. by eapply desc_child.
  - destruct (IHl y Hy) as (x' & Hx' & Hd). exists x'. split; [by right|done].
Qed.

(** The listing is closed under [children]. *)
Lemma Flat_children l r :
  Flat h l r → ∀ p c, p ∈ r → c ∈ kids h p → c ∈ r.
Proof.
  induction 1 as [|x l rx rl Hx IHx _ IHl]; intros p c Hp Hc;
    [by inversion Hp|].
  right. apply elem_of_app.
  apply elem_of_cons in Hp as [->|[Hp|Hp]%elem_of_app].
  - left. by apply (Flat_heads _ _ Hx).
  - left. by apply (IHx p).
  - right. by apply (IHl p).
Qed.

Lemma rooted_desc x d y :
  rooted items x d → desc items x y → ∃ k, rooted items y (k + d).
Proof. intros Hx [k Hk]. exists k. by eapply walk_rooted. Qed.

Lemma same_depth_ancestor x x' d y :
  rooted items x d → rooted items x' d →
  desc items x y → desc items x' y → x = x'.
Proof.
  intros Hx Hx' [k Hk] [k' Hk'].
  pose proof (walk_rooted items k y x d Hk Hx) as H1.
  pose proof (walk_rooted items k' y x' d Hk' Hx') as H2.
  pose proof (rooted_functional items y _ _ H1 H2).
  assert (k = k') as -> by lia. congruence.
Qed.

(** No item is listed twice. *)
Lemma Flat_NoDup l r :
  Flat h l r →
  (∀ p, NoDup (kids h p)) →
  ∀ d, NoDup l → (∀ x, x ∈ l → rooted items x d) → NoDup r.
Proof.
  intros HF Hkids.
  induction HF as [|x l rx rl Hx IHx Hrl IHl]; intros d Hnd Hd;
    [constructor|].
  apply NoDup_cons in Hnd as [Hxl Hnd].
  assert (rooted items x d) as Hrx by (apply Hd; by left).
  assert (∀ y, y ∈ rx → ∃ c, parentOf items c = Some x ∧ desc items c y)
    as Hunder.
  { intros y Hy. destruct (Flat_desc _ _ Hx y Hy) as (c & Hc & Hdc).
    exists c. split; [by apply kids_parentOf|done]. }
  assert (∀ y, y ∈ rl → ∃ x', x' ∈ l ∧ desc items x' y) as Hrest
    by apply (Flat_desc _ _ Hrl).
  apply NoDup_cons. split.
  - intros [Hin|Hin]%elem_of_app.
    + destruct (Hunder x Hin) as (c & Hc & Hdc).
      destruct (rooted_desc c (S d) x) as [k Hk];
        [by econstructor|done|].
      pose proof (rooted_functional items x _ _ Hrx Hk). lia.
    + destruct (Hrest x Hin) as (x' & Hx' & Hdx').
      assert (x' = x) as ->; [|done].
      eapply (same_depth_ancestor x' x d x); eauto using desc_refl.
      apply Hd. by right.
  - apply NoDup_app. split; [|split].
    + apply (IHx (S d)); [apply Hkids|].
      intros c Hc%kids_parentOf. by econstructor.
    + intros y Hy Hy'.
      destruct (Hunder y Hy) as (c & Hc & Hdc).
      destruct (Hrest y Hy') as (x' & Hx' & Hdx').
      assert (x = x') as ->; [|done].
      eapply (same_depth_ancestor x x' d y);
        eauto using desc_child.
      apply Hd. by right.
    + apply (IHl d); [done|]. intros y Hy. apply Hd. by right.
Qed.

(** A listed item is a root of the listing or comes after its parent. *)
Lemma Flat_parent_first l r :
  Flat h l r →
  ∀ c p, c ∈ r → parentOf items c = Some p → c ∈ l ∨ before p c r.
Proof.
  induction 1 as [|x l rx rl Hx IHx _ IHl]; intros c p Hc Hp;
    [by inversion Hc|].
  apply elem_of_cons in Hc as [->|[Hc|Hc]%elem_of_app].
  - left. by left.
  - right. destruct (IHx c p Hc Hp) as [Hkid|Hb].
    + apply kids_parentOf in Hkid. assert (p = x) as -> by congruence.
      apply before_head. apply elem_of_app. by left.
    + by apply before_cons, before_app_l.
  - destruct (IHl c p Hc Hp) as [Hin|Hb]; [left; by right|].
    right. by apply before_cons, before_app_r.
Qed.

Lemma Flat_app_inv l1 l2 r :
  Flat h (l1 ++ l2) r → ∃ r1 r2, r = r1 ++ r2 ∧ Flat h l1 r1 ∧ Flat h l2 r2.
Proof.
  revert r. induction l1 as [|x l1 IH]; intros r HF; simpl in *.
  - exists [], r. split; [done|]. split; [constructor|done].
  - inversion HF as [|? ? rx rl Hx Hl]; subst.
    destruct (IH rl Hl) as (r1 & r2 & -> & H1 & H2).
    exists (x :: rx ++ r1), r2. split; [simpl; by rewrite <-app_assoc|].
    split; [by constructor|done].
Qed.

(** The roots of the listing keep their order. *)
Lemma Flat_before_roots l r a b :
  Flat h l r → before a b l → before a b r.
Proof.
  intros HF (l1 & l2 & l3 & ->).
  apply Flat_app_inv in HF as (r1 & r' & -> & _ & HF).
  apply before_app_r.
  inversion HF as [|? ? ra rl _ Hl]; subst.
  apply (Flat_app_inv l2 (b :: l3)) in Hl as (r2 & r'' & -> & _ & HF').
  inversion HF' as [|? ? rb rl' _ _]; subst.
  exists [], (ra ++ r2), (rb ++ rl'). simpl. by rewrite <-app_assoc.
Qed.

(** The children of a listed item keep their order. *)
Lemma Flat_before_children l r :
  Flat h l r →
  ∀ p a b, p ∈ r → before a b (kids h p) → before a b r.
Proof.
  induction 1 as [|x l rx rl Hx IHx _ IHl]; intros p a b Hp Hab;
    [by inversion Hp|].
  apply before_cons.
  apply elem_of_cons in Hp as [->|[Hp|Hp]%elem_of_app].
  - apply before_app_l. by eapply Flat_before_roots.
  - apply before_app_l. by apply (IHx p).
  - apply before_app_r. by apply (IHl p).
Qed.
End flattenTree.

(* ================================================================== *)
(** ** [flattenTree] after [buildTrainingTree] *)

Lemma omap_lookup_seq {A} (pre l : list A) :
  omap (fun x => (pre ++ l) !! x) (seq (length pre) (length l)) = l.
Proof.
  revert pre. induction l as [|a l IH]; intros pre; [done|].
  cbn [length seq omap list_omap].
  rewrite list_lookup_middle by done.
  specialize (IH (pre ++ [a])).
  rewrite <-app_assoc, length_app in IH. simpl in IH.
  replace (length pre + 1)%nat with (S (length pre)) in IH by lia.
  by rewrite IH.
Qed.

Lemma deref_all (h : heap) :
  deref h (seq 0 (length h)) = obj_fields <$> h.
Proof.
  unfold deref.
  trans (omap (fun x => ([] ++ (obj_fields <$> h)) !! x)
           (seq (length (@nil ItemFields)) (length (obj_fields <$> h))));
    [|apply omap_lookup_seq].
  rewrite length_fmap. simpl.
  induction (seq 0 (length h)) as [|x l IH]; [done|].
  cbn. by rewrite IH, list_lookup_fmap.
Qed.

Section flatten_build.
Context (items : list ItemFields).
Let n := length items.

Lemma walk_index_rev k y x :
  walk items k y = Some x → (x < n)%nat → (y < n)%nat.
Proof.
  destruct k as [|k]; simpl; [by intros [= ->]|].
  destruct (parentOf items y) as [p|] eqn:Hp; [|done].
  intros _ _. by apply (parentOf_Some items y p).
Qed.

(** [flattenTree] returns on the result of [buildTrainingTree], on every
    input. *)
Lemma flatten_build_spec extra :
  ∃ roots h flat,
    buildTrainingTree (S n + extra) items = Some (roots, h)
    ∧ flattenTree (S n + extra) h roots = Some flat
    ∧ linked items (roots, h)
    ∧ roots ≡ₚ filter (fun c => is_root items c = true) (seq 0 n)
    ∧ Flat h roots flat
    ∧ NoDup flat
    ∧ (∀ y, y ∈ flat → (y < n)%nat)
    ∧ ascending h roots
    ∧ ∀ y, y ∈ flat → ascending h (kids h y).
Proof.
  destruct (buildTrainingTree_spec items extra)
    as (roots & h & Hrun & Hl & Hr & Hk & Hasc & Hsub).
  fold n in Hrun, Hr, Hk.
  assert (∀ x, x ∈ roots → rooted items x 0) as Hroots.
  { intros x Hx. rewrite Hr in Hx.
    apply list_elem_of_filter in Hx as [Hx _]. by constructor. }
  destruct (addItems_spec items roots h Hl (S n + extra) O roots [])
    as (flat & Hflat & HF); [done|lia|fold n; lia|].
  exists roots, h, flat. split; [done|]. split; [done|].
  split; [done|]. split; [done|]. split; [done|].
  split; [|split; [|split; [done|]]].
  - eapply (Flat_NoDup items roots h Hl);
      [done| |by rewrite Hr; apply NoDup_filter, NoDup_seq|done].
    intros p. rewrite Hk. apply NoDup_filter, NoDup_seq.
  - intros y Hy.
    destruct (Flat_desc items roots h Hl _ _ HF y Hy) as (x & Hx & [k Hk']).
    eapply walk_index_rev; [done|].
    rewrite Hr in Hx. apply list_elem_of_filter in Hx as [Hx _].
    by apply is_root_lt.
  - intros y Hy.
    destruct (Flat_desc items roots h Hl _ _ HF y Hy) as (x & Hx & Hd).
    by apply (Hsub x).
Qed.
End flatten_build.

(** C1, the sentence as written fails: a one-item collection whose item
    names a parent that is not in the collection is acyclic, and flattening
    the forest built from it yields nothing. *)
Lemma flatten_build_loses_dangling_item :
  let x := sample "x" (Some "ghost") 0 in
  acyclic [x]
  ∧ buildTrainingTree 2 [x] = Some ([], [mkObj x []])
  ∧ flattenTree 2 [mkObj x []] [] = Some []
  ∧ ¬ ([] ≡ₚ seq 0 (length [x])).
Proof.
  split; [|split; [|split]].
  - intros i k. simpl.
    assert (parentOf [sample "x" (Some "ghost") 0] i = None) as ->; [|done].
    destruct i as [|i]; [by vm_compute|]. reflexivity.
  - by vm_compute.
  - reflexivity.
  - intros H%Permutation_length. done.
Qed.

(** C1 (amended).  For every acyclic collection in which every non-empty
    [parent_id] is the [id] of an item of the collection, [flattenTree] of
    the forest that [buildTrainingTree] returns lists every input item
    exactly once, and the listing is a pre-order: every child comes after
    its parent, and the roots and the children of each node come in the
    order of their sorted arrays. *)
Theorem flatten_build_preorder (items : list ItemFields) (extra : nat) :
  closed items → acyclic items →
  ∃ roots h flat,
    buildTrainingTree (S (length items) + extra) items = Some (roots, h)
    ∧ flattenTree (S (length items) + extra) h roots = Some flat
    ∧ flat ≡ₚ seq 0 (length items)
    ∧ deref h flat ≡ₚ items
    ∧ (∀ p c, c ∈ kids h p → before p c flat)
    ∧ ascending h roots
    ∧ (∀ p, ascending h (kids h p))
    ∧ (∀ a b, before a b roots → before a b flat)
    ∧ (∀ p a b, before a b (kids h p) → before a b flat).
Proof.
  intros Hc Hac.
  destruct (flatten_build_spec items extra)
    as (roots & h & flat & Hrun & Hflat & Hl & Hr & HF & Hnd & Hlt
        & Hasc & Hsub).
  assert (∀ i, (i < length items)%nat → i ∈ flat) as Hall.
  { intros i Hi.
    destruct (closed_acyclic_rooted items i Hc Hac Hi) as [d Hd].
    induction Hd as [i Hroot|i p d Hp _ IH].
    - apply (Flat_heads h _ _ HF). rewrite Hr.
      apply list_elem_of_filter. split; [done|].
      apply elem_of_seq. lia.
    - apply (Flat_children h _ _ HF p); [|by apply Hl].
      apply IH. by apply (parentOf_Some items i p). }
  assert (flat ≡ₚ seq 0 (length items)) as Hperm.
  { apply NoDup_Permutation; [done|apply NoDup_seq|].
    intros y. rewrite elem_of_seq. split.
    - intros Hy%Hlt. lia.
    - intros [_ Hy]. by apply Hall. }
  exists roots, h, flat. split; [done|]. split; [done|]. split; [done|].
  assert (length h = length items) as Hlen
    by (destruct Hl as [Hf _]; by apply fields_length).
  split; [|split; [|split; [done|split; [|split]]]].
  - destruct Hl as [Hf _]. simpl in Hf.
    trans (deref h (seq 0 (length items)));
      [by apply omap_Permutation|].
    rewrite <-(fields_length h items Hf), deref_all. by rewrite Hf.
  - intros p c Hpc.
    assert (parentOf items c = Some p) as Hp by by apply Hl.
    destruct (Flat_parent_first items roots h Hl _ _ HF c p) as [Hin|Hb];
      [|done| |done].
    + apply Hall. by apply (parentOf_Some items c p).
    + rewrite Hr in Hin. apply list_elem_of_filter in Hin as [Hroot _].
      apply is_root_parentOf in Hroot. congruence.
  - intros p. destruct (decide (p < length h)%nat) as [Hp|Hge].
    + apply Hsub, Hall. lia.
    + rewrite kids_out_of_range by lia. constructor.
  - intros a b. by apply (Flat_before_roots h).
  - intros p a b Hab. apply (Flat_before_children h _ _ HF p); [|done].
    apply Hall. destruct Hl as [Hf _]. simpl in Hf.
    rewrite <-(fields_length h items Hf).
    destruct (decide (p < length h)%nat) as [|Hge]; [done|].
    rewrite kids_out_of_range in Hab by lia.
    destruct Hab as (l1 & l2 & l3 & Hnil). by destruct l1.
Qed.

Lemma flatten_build_preorder_witness :
  let items :=
    [ sample "c" (Some "b") 0; sample "b" (Some "a") 2;
      sample "a" None 1; sample "d" (Some "a") 1 ] in
  ∃ roots h flat,
    buildTrainingTree 5 items = Some (roots, h)
    ∧ flattenTree 5 h roots = Some flat
    ∧ flat ≡ₚ seq 0 4
    ∧ deref h flat ≡ₚ items
    ∧ (∀ p c, c ∈ kids h p → before p c flat)
    ∧ ascending h roots
    ∧ (∀ p, ascending h (kids h p))
    ∧ (∀ a b, before a b roots → before a b flat)
    ∧ (∀ p a b, before a b (kids h p) → before a b flat).
Proof.
  apply (flatten_build_preorder
           [ sample "c" (Some "b") 0; sample "b" (Some "a") 2;
             sample "a" None 1; sample "d" (Some "a") 1 ] 0).
  - intros i f Hi Ht.
    destruct i as [|[|[|[|i]]]]; simplify_eq/=.
    + exists 1%nat. eexists. split; reflexivity.
    + exists 2%nat. eexists. split; reflexivity.
    + exists 2%nat. eexists. split; reflexivity.
  - assert (∀ i p, parentOf
              [ sample "c" (Some "b") 0; sample "b" (Some "a") 2;
                sample "a" None 1; sample "d" (Some "a") 1 ] i = Some p →
              (i = 0 ∧ p = 1 ∨ i = 1 ∧ p = 2 ∨ i = 3 ∧ p = 2)%nat) as Hpar.
    { intros i p. destruct i as [|[|[|[|i]]]]; vm_compute;
        intros [= <-] || intros [=]; auto. }
    intros i k Hw. simpl in Hw.
    destruct (parentOf _ i) as [p|] eqn:Hp; [|done]. simpl in Hw.
    apply Hpar in Hp.
    destruct k as [|k]; simpl in Hw; [simplify_eq; lia|].
    destruct (parentOf _ p) as [q|] eqn:Hq; [|done]. simpl in Hw.
    apply Hpar in Hq.
    destruct k as [|k]; simpl in Hw; [simplify_eq; lia|].
    destruct (parentOf _ q) as [r|] eqn:Hr; [|done]. simpl in Hw.
    apply Hpar in Hr. lia.
Defined.

(* ================================================================== *)
(** ** Statistics *)

Lemma isCompleted_iff f :
  isCompleted f = true
  ↔ status f = COMPLETED ∨ (100 <= progress_percentage f)%Q.
Proof.
  unfold isCompleted. rewrite orb_true_iff, bool_decide_eq_true.
  by rewrite Qle_bool_iff.
Qed.

Lemma totalEstimatedHours_sum l :
  (totalEstimatedHours (computeStats l)
   == Qsum ((fun f => inject_Z (estimated_duration_minutes f) / 60) <$> l))%Q.
Proof.
  unfold computeStats. simpl.
  rewrite (foldl_Qplus_shift
             (fun f => inject_Z (estimated_duration_minutes f) / 60)%Q).
  apply Qplus_0_l.
Qed.

Lemma Qsum_app l k : (Qsum (l ++ k) == Qsum l + Qsum k)%Q.
Proof.
  induction l as [|x l IH]; simpl.
  - symmetry. apply Qplus_0_l.
  - unfold Qsum in *. simpl. rewrite IH. apply Qplus_assoc.
Qed.

(** [getUserStats] returns on every table content. *)
Lemma getUserStats_returns now rows extra :
  ∃ roots h flat,
    getTrainingItems (S (length rows) + extra) now rows = Some (roots, h)
    ∧ flattenTree (S (length rows) + extra) h roots = Some flat
    ∧ getUserStats (S (length rows) + extra) now rows
      = Some (computeStats (deref h flat)).
Proof.
  unfold getUserStats, getTrainingItems.
  set (items := (fun row => fields (constructor "" now (of_row row))) <$> rows).
  assert (length rows = length items) as -> by (unfold items; by rewrite length_fmap).
  destruct (flatten_build_spec items extra)
    as (roots & h & flat & Hrun & Hflat & _).
  exists roots, h, flat. by rewrite Hrun, Hflat.
Qed.

(** C9, the sentence as written fails: with one item, completed, the rate
    returned is 100 while completed divided by total is 1. *)
Lemma completionRate_is_a_percentage :
  let rows := [set_status COMPLETED (sample "a" None 0)] in
  ∃ stats,
    getUserStats 2 7 rows = Some stats
    ∧ totalItems stats = 1%nat
    ∧ completedItems stats = 1%nat
    ∧ (completionRate stats == 100)%Q
    ∧ ¬ (completionRate stats
         == Qnat (completedItems stats) / Qnat (totalItems stats))%Q.
Proof.
  eexists. split; [by vm_compute|]. vm_compute.
  split; [done|]. split; [done|]. split; [done|]. intros [=].
Qed.

(** C9 (amended).  [getUserStats] returns on every table content; it counts
    as completed exactly the flattened items with [status] [COMPLETED] or
    [progress_percentage] at least 100; [completionRate] is completed divided
    by total, times 100 (a percentage); on an empty flattened forest every
    count and the rate are zero. *)
Theorem getUserStats_completion :
  (∀ now rows extra,
     ∃ roots h flat,
       getTrainingItems (S (length rows) + extra) now rows = Some (roots, h)
       ∧ flattenTree (S (length rows) + extra) h roots = Some flat
       ∧ getUserStats (S (length rows) + extra) now rows
         = Some (computeStats (deref h flat)))
  ∧ (∀ flatItems,
       totalItems (computeStats flatItems) = length flatItems
       ∧ completedItems (computeStats flatItems)
         = length (filter (fun item => isCompleted item = true) flatItems))
  ∧ (∀ item,
       isCompleted item = true
       ↔ status item = COMPLETED ∨ (100 <= progress_percentage item)%Q)
  ∧ computeStats [] = mkUserStats 0 0 0 0 0 0 0
  ∧ (∀ item flatItems,
       completionRate (computeStats (item :: flatItems))
       == Qnat (completedItems (computeStats (item :: flatItems)))
          / Qnat (totalItems (computeStats (item :: flatItems))) * 100)%Q.
Proof.
  split; [apply getUserStats_returns|].
  split; [done|].
  split; [apply isCompleted_iff|].
  split; [done|].
  intros item flatItems. reflexivity.
Qed.

(** The items [getUserStats] counts have all gone through the constructor. *)
Lemma getTrainingItems_constructed now rows extra :
  ∃ roots h flat,
    getTrainingItems (S (length rows) + extra) now rows = Some (roots, h)
    ∧ flattenTree (S (length rows) + extra) h roots = Some flat
    ∧ ∀ f, f ∈ deref h flat →
           ∃ row, row ∈ rows ∧ f = fields (constructor "" now (of_row row)).
Proof.
  unfold getTrainingItems.
  set (items := (fun row => fields (constructor "" now (of_row row))) <$> rows).
  assert (length rows = length items) as -> by (unfold items; by rewrite length_fmap).
  destruct (flatten_build_spec items extra)
    as (roots & h & flat & Hrun & Hflat & [Hf _] & _).
  exists roots, h, flat. split; [done|]. split; [done|].
  intros f Hin. unfold deref in Hin.
  apply list_elem_of_omap in Hin as (x & _ & Hx).
  rewrite <-list_lookup_fmap in Hx. simpl in Hf. rewrite Hf in Hx.
  apply list_elem_of_lookup_2 in Hx.
  apply list_elem_of_fmap in Hx as (row & -> & Hrow). eauto.
Qed.

(** C10.  A record whose [estimated_duration_minutes] is 0 or absent is
    constructed with 30 minutes, no constructed item has a duration of 0,
    and so [getTotalEstimatedTime] and the hours of [getUserStats] count 30
    minutes for such an item. *)
Theorem constructor_default_duration (generated : string) (now : Date)
    (data : PartialItem) :
  p_estimated_duration_minutes data = None
  ∨ p_estimated_duration_minutes data = Some 0 →
  estimated_duration_minutes (fields (constructor generated now data)) = 30
  ∧ (∀ generated' now' data',
       estimated_duration_minutes (fields (constructor generated' now' data'))
       ≠ 0)
  ∧ getTotalEstimatedTime (constructor generated now data)
    = 30 + foldr Z.add 0
             (getTotalEstimatedTime <$> children (constructor generated now data))
  ∧ (∀ before_ after_,
       totalEstimatedHours
         (computeStats
            (before_ ++ fields (constructor generated now data) :: after_))
       == 30 / 60 + totalEstimatedHours (computeStats (before_ ++ after_)))%Q.
Proof.
  intros Hzero.
  assert (estimated_duration_minutes (fields (constructor generated now data))
          = 30) as H30.
  { rewrite constructor_duration. by destruct Hzero as [-> | ->]. }
  split; [done|]. split; [apply constructor_duration_nonzero|]. split.
  - destruct (constructor generated now data) as [f cs] eqn:Hc.
    rewrite getTotalEstimatedTime_unfold. simpl in *. by rewrite H30.
  - intros l1 l2. rewrite !totalEstimatedHours_sum, !fmap_app, !Qsum_app.
    rewrite fmap_cons, H30.
    change (Qsum (?x :: ?l)) with (x + Qsum l)%Q.
    change (inject_Z 30) with 30%Q.
    generalize (30 / 60)%Q. intros c.
    generalize (Qsum ((fun f => inject_Z (estimated_duration_minutes f) / 60)%Q
                      <$> l1)).
    generalize (Qsum ((fun f => inject_Z (estimated_duration_minutes f) / 60)%Q
                      <$> l2)).
    intros b a. ring.
Qed.

Lemma constructor_default_duration_witness :
  estimated_duration_minutes
    (fields (constructor "g" 7 (key_parent_id "a" no_updates))) = 30
  ∧ estimated_duration_minutes
      (fields (constructor "g" 7 (of_row
         {| id := "z"; user_id := "u1"; parent_id := None; title := "z";
            description := None; category := TECHNICAL;
            skill_type := HARD_SKILL; difficulty_level := BEGINNER;
            estimated_duration_minutes := 0; status := NOT_STARTED;
            progress_percentage := 0%Q; completed_at := None;
            last_practiced_at := None; source := MANUAL; source_url := None;
            tags := []; created_at := 0; updated_at := 0; level := 0;
            order_index := 0 |}))) = 30.
Proof.
  split.
  - apply (constructor_default_duration "g" 7 (key_parent_id "a" no_updates)).
    left. reflexivity.
  - apply (constructor_default_duration "g" 7 (of_row _)).
    right. reflexivity.
Defined.

(* ================================================================== *)
(** ** The model class: children, totals, progress *)

Lemma every_node_children P f cs :
  every_node P (Item f cs) ↔ P f ∧ Forall (every_node P) cs.
Proof.
  simpl. apply and_iff_compat_l.
  induction cs as [|c cs IH]; simpl.
  - split; [constructor|done].
  - rewrite Forall_cons, IH. done.
Qed.

(** Induction over an item and its subtrees. *)
Lemma TrainingItem_tree_ind (P : TrainingItem → Prop) :
  (∀ f cs, Forall P cs → P (Item f cs)) → ∀ t, P t.
Proof.
  intros Hstep.
  fix IH 1. intros [f cs]. apply Hstep.
  induction cs as [|c cs IHcs]; constructor; [apply IH|apply IHcs].
Qed.

Lemma imap_order_index (cs : list TrainingItem) (k : nat) :
  (order_index ∘ fields)
    <$> imap (fun index child =>
                Item (set_order_index (Z.of_nat (k + index)) (fields child))
                     (children child)) cs
  = Z.of_nat <$> seq k (length cs).
Proof.
  revert k. induction cs as [|c cs IH]; intros k; [done|].
  cbn. rewrite Nat.add_0_r. f_equal.
  rewrite <-(IH (S k)). f_equal. apply imap_ext. intros i x _. simpl.
  by replace (k + S i)%nat with (S k + i)%nat by lia.
Qed.

Lemma imap_keeps_id_children (cs : list TrainingItem) (g : nat → Z) :
  (fun c => (id (fields c), children c))
    <$> imap (fun index child =>
                Item (set_order_index (g index) (fields child))
                     (children child)) cs
  = (fun c => (id (fields c), children c)) <$> cs.
Proof.
  revert g. induction cs as [|c cs IH]; intros g; [done|].
  cbn. f_equal. apply (IH (g ∘ S)).
Qed.

(** X1.  [removeChild] removes every child with the given id, keeps the other
    children with their ids and subtrees in their order, and renumbers their
    [order_index] 0, 1, 2, ... *)
Theorem removeChild_renumbers (childId : string) (f : ItemFields)
    (cs : list TrainingItem) :
  let kept := filter (fun c => id (fields c) ≠ childId) cs in
  let this' := removeChild childId (Item f cs) in
  fields this' = f
  ∧ (fun c => (id (fields c), children c)) <$> children this'
    = (fun c => (id (fields c), children c)) <$> kept
  ∧ densely_indexed (children this')
  ∧ (∀ c, c ∈ children this' → id (fields c) ≠ childId).
Proof.
  simpl.
  assert (filter (fun child => negb (String.eqb (id (fields child)) childId)) cs
          = filter (fun c => id (fields c) ≠ childId) cs) as ->.
  { apply list_filter_iff. intros c.
    destruct (String.eqb_spec (id (fields c)) childId); simpl; split; done. }
  set (kept := filter (fun c => id (fields c) ≠ childId) cs).
  split; [done|]. split; [apply imap_keeps_id_children|]. split.
  - unfold densely_indexed. rewrite length_imap.
    apply (imap_order_index kept 0).
  - intros c (i & c0 & -> & Hi%list_elem_of_lookup_2)%elem_of_lookup_imap_1.
    simpl. by apply list_elem_of_filter in Hi as [? _].
Qed.

Lemma filter_none_removed (cs : list TrainingItem) childId :
  Forall (fun c => id (fields c) ≠ childId) cs →
  filter (fun child => negb (String.eqb (id (fields child)) childId)) cs = cs.
Proof.
  induction 1 as [|c cs Hc _ IH]; [done|].
  rewrite filter_cons_True; [by rewrite IH|].
  by destruct (String.eqb_spec (id (fields c)) childId).
Qed.

Lemma imap_densely_indexed (cs : list TrainingItem) (k : nat) :
  (order_index ∘ fields) <$> cs = Z.of_nat <$> seq k (length cs) →
  imap (fun index child =>
          Item (set_order_index (Z.of_nat (k + index)) (fields child))
               (children child)) cs = cs.
Proof.
  revert k. induction cs as [|[cf ccs] cs IH]; intros k; [done|].
  cbn. intros [= Ho Hrest]. rewrite Nat.add_0_r. f_equal.
  - f_equal. destruct cf. simpl in *. by rewrite Ho.
  - rewrite <-(IH (S k) Hrest) at 2. apply imap_ext. intros i x _. simpl.
    by replace (k + S i)%nat with (S k + i)%nat by lia.
Qed.

(** X2.  Adding a child and removing it again gives back the parent, when no
    child had that id and the children were numbered 0, 1, 2, ... *)
Theorem removeChild_addChild (child this : TrainingItem) :
  Forall (fun c => id (fields c) ≠ id (fields child)) (children this) →
  densely_indexed (children this) →
  removeChild (id (fields child)) (addChild child this) = this.
Proof.
  destruct this as [f cs], child as [cf ccs]. simpl. intros Hids Hdense.
  f_equal. rewrite filter_app, filter_none_removed by done.
  rewrite filter_cons_False, filter_nil, app_nil_r.
  - by apply (imap_densely_indexed cs 0).
  - simpl. rewrite String.eqb_refl. simpl. auto.
Qed.

Lemma removeChild_addChild_witness :
  let this :=
    Item (sample "p" None 0)
         [Item (sample "a" (Some "p") 0) []; Item (sample "b" (Some "p") 1) []] in
  removeChild "c" (addChild (Item (sample "c" None 7) []) this) = this.
Proof.
  apply (removeChild_addChild (Item (sample "c" None 7) [])
           (Item (sample "p" None 0)
                 [Item (sample "a" (Some "p") 0) [];
                  Item (sample "b" (Some "p") 1) []])).
  - repeat constructor; discriminate.
  - reflexivity.
Defined.

(** X3.  Linking a child adds exactly the child's total time to the parent's
    total. *)
Theorem getTotalEstimatedTime_addChild (child this : TrainingItem) :
  getTotalEstimatedTime (addChild child this)
  = getTotalEstimatedTime this + getTotalEstimatedTime child.
Proof.
  destruct this as [f cs], child as [cf ccs]. simpl addChild.
  rewrite !getTotalEstimatedTime_unfold, fmap_app, foldr_app. cbn [fmap list_fmap foldr].
  rewrite getTotalEstimatedTime_unfold. simpl.
  assert (∀ (l : list Z) (a : Z), foldr Z.add a l = foldr Z.add 0 l + a) as Hf.
  { induction l as [|x l IH]; intros a; simpl; [lia|]. rewrite IH. lia. }
  rewrite (Hf _ (_ + 0)). lia.
Qed.

Lemma Qsum_bounds (l : list Q) :
  Forall (fun q => 0 <= q <= 100)%Q l →
  (0 <= Qsum l <= 100 * Qnat (length l))%Q.
Proof.
  induction 1 as [|q l [Hq0 Hq100] _ [IH0 IH100]].
  - split; [apply Qle_refl|]. unfold Qnat. simpl. discriminate.
  - change (Qsum (q :: l)) with (q + Qsum l)%Q. split.
    + replace 0%Q with (0 + 0)%Q by reflexivity. by apply Qplus_le_compat.
    + assert (Qnat (length (q :: l)) == 1 + Qnat (length l))%Q as ->.
      { unfold Qnat. simpl length. rewrite Nat2Z.inj_succ, <-Z.add_1_l.
        by rewrite inject_Z_plus. }
      rewrite Qmult_plus_distr_r, Qmult_1_r. by apply Qplus_le_compat.
Qed.

Lemma Qnat_nonneg n : (0 <= Qnat n)%Q.
Proof. unfold Qnat, Qle. simpl. lia. Qed.

(** X4.  When the own progress of a node and of every descendant lies
    between 0 and 100, so does [getOverallProgress]. *)
Theorem getOverallProgress_bounds (this : TrainingItem) :
  every_node (fun f => 0 <= progress_percentage f <= 100)%Q this →
  (0 <= getOverallProgress this <= 100)%Q.
Proof.
  induction this as [f cs IH] using TrainingItem_tree_ind.
  intros [Hf Hcs]%every_node_children.
  destruct cs as [|c cs]; [done|].
  rewrite getOverallProgress_node.
  set (l := getOverallProgress <$> (c :: cs)).
  assert (Forall (fun q => 0 <= q <= 100)%Q l) as Hl.
  { unfold l. apply Forall_fmap. rewrite Forall_forall in IH, Hcs.
    apply Forall_forall. intros x Hx. by apply IH, Hcs. }
  apply Qsum_bounds in Hl as [Hs0 Hs100].
  assert (length l = length (c :: cs)) as Hlen by (unfold l; by rewrite length_fmap).
  rewrite Hlen in Hs100.
  set (k := Qnat (length (c :: cs))) in *.
  assert (0 <= k)%Q as Hk by apply Qnat_nonneg.
  assert (0 < 1 + k)%Q as Hpos.
  { apply Qlt_le_trans with (1 + 0)%Q; [done|].
    apply Qplus_le_compat; [apply Qle_refl|done]. }
  destruct Hf as [Hf0 Hf100]. split.
  - apply Qle_shift_div_l; [done|]. rewrite Qmult_0_l.
    replace 0%Q with (0 + 0)%Q by reflexivity. by apply Qplus_le_compat.
  - apply Qle_shift_div_r; [done|].
    rewrite Qmult_plus_distr_r, Qmult_1_r. by apply Qplus_le_compat.
Qed.

Lemma getOverallProgress_bounds_witness :
  (0 <= getOverallProgress
          (Item (set_progress_percentage 100 (sample "a" None 0))
                [Item (sample "b" None 0) [];
                 Item (set_progress_percentage 50 (sample "c" None 1))
                      [Item (set_progress_percentage 20 (sample "d" None 0)) []]])
   <= 100)%Q.
Proof.
  apply getOverallProgress_bounds. simpl.
  repeat split; discriminate.
Defined.

(** X5.  Repeating a progress update with the same percentage at the same
    time changes nothing more. *)
Theorem updateProgress_idempotent (now : Date) (p : Q) (this : ItemFields) :
  updateProgress now p (updateProgress now p this) = updateProgress now p this.
Proof.
  destruct this as [? ? ? ? ? ? ? ? ? st ? ? ? ? ? ? ? ? ? ?].
  unfold updateProgress. simpl.
  destruct (Qle_bool 100 p), (Qlt_bool 0 p), st; reflexivity.
Qed.

Lemma clamp_saturated p : (100 <= clamp p)%Q ↔ (100 <= p)%Q.
Proof.
  unfold clamp. split.
  - intros H. apply Q.max_le in H as [H|H]; [done|].
    by apply Q.min_glb_r in H.
  - intros H. apply Qle_trans with (Qmin 100 p); [|apply Q.le_max_r].
    apply Q.min_glb; [apply Qle_refl|done].
Qed.

(** X6.  After a progress update the item counts as completed exactly when
    the percentage given was at least 100 or the item was already
    [COMPLETED]; after a saturating update practice cannot be started. *)
Theorem isCompleted_updateProgress (now : Date) (p : Q) (this : ItemFields) :
  (isCompleted (updateProgress now p this) = true
   ↔ (100 <= p)%Q ∨ status this = COMPLETED)
  ∧ ((100 <= p)%Q → canStartPracticing (updateProgress now p this) = false).
Proof.
  split.
  - rewrite isCompleted_iff, updateProgress_progress, clamp_saturated.
    split.
    + intros [Hs|Hp]; [|by left].
      destruct (Qle_bool 100 p) eqn:E; [left; by apply Qle_bool_iff|].
      right. revert Hs. unfold updateProgress. simpl. rewrite E. simpl.
      destruct (Qlt_bool 0 p && bool_decide (status this = NOT_STARTED)); done.
    + intros [Hp|Hs]; [by right|]. left.
      unfold updateProgress. simpl. rewrite Hs. simpl.
      rewrite andb_false_r. simpl. by rewrite andb_false_r.
  - intros Hp. destruct (updateProgress_saturating now p this Hp) as [Hs _].
    unfold canStartPracticing. by rewrite Hs.
Qed.

Lemma isCompleted_updateProgress_witness :
  canStartPracticing (updateProgress 7 120 (set_status PAUSED (sample "a" None 0)))
  = false.
Proof.
  apply (isCompleted_updateProgress 7 120). discriminate.
Defined.

(** X7.  An item read back through its row is unchanged: constructing from
    the row of a constructed item gives the same fields. *)
Theorem constructor_of_row_fixed (generated : string) (now now' : Date)
    (data : PartialItem) :
  fields (constructor generated now'
            (of_row (fields (constructor generated now data))))
  = fields (constructor generated now data).
Proof.
  destruct data as [pid puid ppar ptitle pdesc pcat pst pdl pest pstat pprog
                      pca plp psrc purl ptags pcr pup pch plev pord].
  cbv [constructor of_row fields].
  cbn [id user_id parent_id title description category skill_type
       difficulty_level estimated_duration_minutes status progress_percentage
       completed_at last_practiced_at source source_url tags created_at
       updated_at level order_index
       p_id p_user_id p_parent_id p_title p_description p_category
       p_skill_type p_difficulty_level p_estimated_duration_minutes p_status
       p_progress_percentage p_completed_at p_last_practiced_at p_source
       p_source_url p_tags p_created_at p_updated_at p_children p_level
       p_order_index or_else].
  assert (∀ a b, or_string (Some (or_string a b)) b = or_string a b) as Hs.
  { intros [s|] b; simpl.
    - destruct (String.eqb_spec s ""); simpl.
      + by destruct (String.eqb b "").
      + by destruct (String.eqb_spec s "").
    - by destruct (String.eqb b ""). }
  assert (∀ a b, or_Z (Some (or_Z a b)) b = or_Z a b) as Hz.
  { intros [z|] b; simpl.
    - destruct (Z.eqb_spec z 0); simpl.
      + by destruct (Z.eqb b 0).
      + by destruct (Z.eqb_spec z 0).
    - by destruct (Z.eqb b 0). }
  assert (∀ a, or_Q (Some (or_Q a 0)) 0 = or_Q a 0) as Hq.
  { intros [q|]; simpl; [|done].
    destruct (Qeq_bool q 0) eqn:E; simpl; [done|]. by rewrite E. }
  by rewrite !Hs, !Hz, Hq.
Qed.

(* ================================================================== *)
(** ** The service: what an update touches *)



(** X9.  On a row that is [NOT_STARTED] or [IN_PROGRESS] the service's
    [updateProgress] stores exactly the row that the model method
    [TrainingItem.updateProgress] computes. *)
Theorem service_updateProgress_agrees (now : Date) (id_ : string) (p : Q)
    (db : table) (row : ItemFields) :
  db !! id_ = Some row →
  status row = NOT_STARTED ∨ status row = IN_PROGRESS →
  (service_updateProgress now id_ p db).1 !! id_
  = Some (updateProgress now p row).
Proof.
  intros Hrow Hst.
  unfold service_updateProgress, updateTrainingItem, supabase_update.
  rewrite Hrow. simpl. rewrite lookup_insert_eq. f_equal.
  destruct row as [? ? ? ? ? ? ? ? ? st ? ? ? ? ? ? ? ? ? ?].
  simpl in Hst. unfold updateProgress, updateProgress_updates. simpl.
  destruct Hst as [-> | ->];
    destruct (Qle_bool 100 p), (Qlt_bool 0 p); reflexivity.
Qed.

Lemma service_updateProgress_agrees_witness :
  (service_updateProgress 7 "a" 40 ({[ "a" := sample "a" None 0 ]} : table)).1
    !! "a"
  = Some (updateProgress 7 40 (sample "a" None 0)).
Proof.
  apply (service_updateProgress_agrees 7 "a" 40 _ (sample "a" None 0)).
  - reflexivity.
  - left. reflexivity.
Defined.

(* ================================================================== *)
(** ** Statistics: what the counts always satisfy *)

Lemma filter_length_le {A} (P : A → Prop) `{∀ x, Decision (P x)} (l : list A) :
  (length (filter P l) ≤ length l)%nat.
Proof. apply sublist_length, sublist_filter. Qed.

Lemma skill_type_split (l : list ItemFields) :
  (length (filter (fun item => skill_type item = HARD_SKILL) l)
   + length (filter (fun item => skill_type item = SOFT_SKILL) l))%nat
  = length l.
Proof.
  induction l as [|x l IH]; [done|].
  rewrite !filter_cons. destruct (skill_type x) eqn:E.
  - rewrite decide_True, decide_False by done. simpl. lia.
  - rewrite decide_False, decide_True by done. simpl. lia.
Qed.

Lemma Qnat_le a b : (a ≤ b)%nat → (Qnat a <= Qnat b)%Q.
Proof. intros H. unfold Qnat. rewrite <-Zle_Qle. lia. Qed.

(** X10.  In every result of the statistics the hard and the soft skills add
    up to the total, the completed and the in-progress items are at most the
    total, and the completion rate lies between 0 and 100. *)
Theorem computeStats_invariants (flatItems : list ItemFields) :
  let s := computeStats flatItems in
  (hardSkillsCount s + softSkillsCount s)%nat = totalItems s
  ∧ (completedItems s ≤ totalItems s)%nat
  ∧ (inProgressItems s ≤ totalItems s)%nat
  ∧ (0 <= completionRate s <= 100)%Q.
Proof.
  simpl. split; [apply skill_type_split|].
  split; [apply filter_length_le|]. split; [apply filter_length_le|].
  destruct flatItems as [|x l]; [done|].
  change (Nat.ltb 0 (length (x :: l))) with true. cbv iota.
  set (c := length (filter (fun item => isCompleted item = true) (x :: l))).
  set (t := length (x :: l)).
  assert (c ≤ t)%nat as Hct by apply filter_length_le.
  assert (0 < Qnat t)%Q as Ht.
  { unfold Qnat, Qlt. cbn [Qnum Qden inject_Z]. subst t. simpl length. lia. }
  split.
  - apply Qmult_le_0_compat; [|discriminate].
    apply Qle_shift_div_l; [done|]. rewrite Qmult_0_l. apply Qnat_nonneg.
  - assert (Qnat c / Qnat t <= 1)%Q as H1.
    { apply Qle_shift_div_r; [done|]. rewrite Qmult_1_l. by apply Qnat_le. }
    apply Qle_trans with (1 * 100)%Q; [|discriminate].
    apply Qmult_le_compat_r; [done|discriminate].
Qed.

(* ================================================================== *)
(** ** Which items the built forest holds *)

Section forest_members.
Context (items : list ItemFields).
Let n := length items.

(** X11.  On every input, the forest that [buildTrainingTree] returns holds
    exactly the items from which the chain of parents leads to a root, and
    [flattenTree] lists exactly these, each once. *)
Theorem forest_holds_rooted_items (extra : nat) :
  ∃ roots h flat,
    buildTrainingTree (S (length items) + extra) items = Some (roots, h)
    ∧ flattenTree (S (length items) + extra) h roots = Some flat
    ∧ NoDup flat
    ∧ (∀ x, x ∈ flat ↔ ∃ d, rooted items x d)
    ∧ (∀ x, in_forest h roots x ↔ ∃ d, rooted items x d).
Proof.
  destruct (flatten_build_spec items extra)
    as (roots & h & flat & Hrun & Hflat & Hl & Hr & HF & Hnd & _).
  fold n in Hr.
  assert (∀ x, x ∈ roots ↔ is_root items x = true) as Hroots.
  { intros x. rewrite Hr, list_elem_of_filter, elem_of_seq.
    split; [by intros [? _]|]. intros Hx. split; [done|].
    apply is_root_lt in Hx. fold n in Hx. lia. }
  assert (∀ r x, r ∈ roots → desc items r x → ∃ d, rooted items x d) as Hdesc.
  { intros r x Hin [k Hk]. exists (k + 0)%nat.
    eapply walk_rooted; [done|]. constructor. by apply Hroots. }
  exists roots, h, flat. split; [done|]. split; [done|]. split; [done|].
  split; intros x; split.
  - intros Hx. destruct (Flat_desc items roots h Hl _ _ HF x Hx)
      as (r & Hin & Hd). by eapply Hdesc.
  - intros [d Hd]. induction Hd as [i Hroot|i p d Hp _ IH].
    + apply (Flat_heads h _ _ HF). by apply Hroots.
    + apply (Flat_children h _ _ HF p); [done|]. by apply Hl.
  - intros Hx. destruct (in_forest_desc items roots h x Hl Hx)
      as (r & Hin & Hd). by eapply Hdesc.
  - intros [d Hd]. induction Hd as [i Hroot|i p d Hp _ IH].
    + constructor. by apply Hroots.
    + eapply in_forest_child; [done|]. by apply Hl.
Qed.

Lemma cyclic_not_rooted i k d :
  walk items (S k) i = Some i → ¬ rooted items i d.
Proof.
  intros Hw Hd.
  pose proof (walk_rooted items (S k) i i d Hw Hd) as Hd'.
  pose proof (rooted_functional items i _ _ Hd Hd'). lia.
Qed.
End forest_members.

(** X12.  An item that is its own ancestor (it lies on a cycle of
    [parent_id]s) is returned neither in the forest nor in its flattening. *)
Theorem buildTrainingTree_drops_cycles (items : list ItemFields)
    (extra : nat) (i : ref) (k : nat) :
  walk items (S k) i = Some i →
  ∃ roots h flat,
    buildTrainingTree (S (length items) + extra) items = Some (roots, h)
    ∧ flattenTree (S (length items) + extra) h roots = Some flat
    ∧ ¬ in_forest h roots i
    ∧ (i ∉ flat).
Proof.
  intros Hw.
  destruct (forest_holds_rooted_items items extra)
    as (roots & h & flat & Hrun & Hflat & _ & Hfl & Hfo).
  exists roots, h, flat. split; [done|]. split; [done|]. split.
  - intros [d Hd]%Hfo. by eapply cyclic_not_rooted.
  - intros [d Hd]%Hfl. by eapply cyclic_not_rooted.
Qed.

Lemma buildTrainingTree_drops_cycles_witness :
  let items := [sample "a" (Some "b") 0; sample "b" (Some "a") 1;
                sample "r" None 2] in
  let i : ref := 0%nat in
  ∃ roots h flat,
    buildTrainingTree 4 items = Some (roots, h)
    ∧ flattenTree 4 h roots = Some flat
    ∧ ¬ in_forest h roots i
    ∧ (i ∉ flat).
Proof.
  apply (buildTrainingTree_drops_cycles
           [sample "a" (Some "b") 0; sample "b" (Some "a") 1;
            sample "r" None 2] 0 0 1).
  by vm_compute.
Defined.

(** X13.  [getUserStats] never counts more items than the table returned
    rows. *)
Theorem getUserStats_total_le (now : Date) (rows : list ItemFields)
    (extra : nat) :
  ∃ stats,
    getUserStats (S (length rows) + extra) now rows = Some stats
    ∧ (totalItems stats ≤ length rows)%nat.
Proof.
  unfold getUserStats, getTrainingItems.
  set (items := (fun row => fields (constructor "" now (of_row row))) <$> rows).
  assert (length rows = length items) as ->
    by (unfold items; by rewrite length_fmap).
  destruct (flatten_build_spec items extra)
    as (roots & h & flat & Hrun & Hflat & _ & _ & _ & Hnd & Hlt & _).
  rewrite Hrun, Hflat. eexists. split; [done|]. simpl.
  apply Nat.le_trans with (length flat); [|by apply pigeonhole].
  unfold deref. clear. induction flat as [|x l IH]; [done|].
  cbn. destruct (obj_fields <$> h !! x); simpl; lia.
Qed.

(* ================================================================== *)
(** ** Team comments *)

Lemma includes_elem_of x l : includes x l = true ↔ x ∈ l.
Proof.
  unfold includes. rewrite existsb_exists. split.
  - intros (y & Hy & ->%String.eqb_eq). by apply list_elem_of_In.
  - intros Hx. exists x. split; [by apply list_elem_of_In|apply String.eqb_refl].
Qed.

Lemma includes_snoc x y l :
  includes x (l ++ [y]) = includes x l || String.eqb x y.
Proof. unfold includes. rewrite existsb_app. simpl. by rewrite orb_false_r. Qed.

Lemma includes_not_elem_of x l : includes x l = false ↔ x ∉ l.
Proof.
  rewrite <-includes_elem_of. by destruct (includes x l).
Qed.

(** X14.  [markReadBy] makes the comment read for that user and for nobody
    else, adds the user at most once, and a second call changes nothing. *)
Theorem markReadBy_marks_once (userId : string) (this : TeamComment) :
  isUnreadBy userId (markReadBy userId this) = false
  ∧ (∀ other, other ≠ userId →
       isUnreadBy other (markReadBy userId this) = isUnreadBy other this)
  ∧ markReadBy userId (markReadBy userId this) = markReadBy userId this
  ∧ (NoDup (read_by this) → NoDup (read_by (markReadBy userId this))).
Proof.
  unfold markReadBy, isUnreadBy.
  destruct (includes userId (read_by this)) eqn:E; simpl.
  - rewrite ?E. simpl. rewrite ?E. done.
  - rewrite !includes_snoc, String.eqb_refl, orb_true_r. simpl.
    split; [done|]. split; [|split; [done|]].
    + intros other Hne. rewrite includes_snoc.
      apply String.eqb_neq in Hne. by rewrite Hne, orb_false_r.
    + intros Hnd. apply NoDup_app. split; [done|].
      split; [|apply NoDup_singleton].
      intros x Hx ->%list_elem_of_singleton.
      by apply includes_not_elem_of in E.
Qed.

Definition sample_comment (readers mentions : list string) : TeamComment :=
  mkTeamComment "c1" (Some "t1") (Some "u1") None "lead" "well done" FEEDBACK
                TEAM None None mentions readers false 0 0 false.

Lemma markReadBy_marks_once_witness :
  NoDup (read_by (markReadBy "u2" (sample_comment ["u1"] []))).
Proof.
  apply (markReadBy_marks_once "u2" (sample_comment ["u1"] [])).
  simpl. apply NoDup_singleton.
Defined.

(** X15.  [addMention] keeps the mentions there were, in their order, has the
    user mentioned afterwards, never mentions a user twice, and a second
    call changes nothing. *)
Theorem addMention_mentions_once (userId : string) (this : TeamComment) :
  includes userId (mentioned_user_ids (addMention userId this)) = true
  ∧ (mentioned_user_ids (addMention userId this) = mentioned_user_ids this
     ∨ mentioned_user_ids (addMention userId this)
       = mentioned_user_ids this ++ [userId])
  ∧ addMention userId (addMention userId this) = addMention userId this
  ∧ (NoDup (mentioned_user_ids this) →
     NoDup (mentioned_user_ids (addMention userId this))).
Proof.
  unfold addMention.
  destruct (includes userId (mentioned_user_ids this)) eqn:E; simpl.
  - rewrite ?E. simpl. rewrite ?E. split; [done|]. split; [by left|]. done.
  - rewrite !includes_snoc, String.eqb_refl, orb_true_r. simpl.
    split; [done|]. split; [by right|]. split; [done|].
    intros Hnd. apply NoDup_app. split; [done|].
    split; [|apply NoDup_singleton].
    intros x Hx ->%list_elem_of_singleton.
    by apply includes_not_elem_of in E.
Qed.

Lemma addMention_mentions_once_witness :
  NoDup (mentioned_user_ids (addMention "u1" (sample_comment [] ["u1"; "u3"]))).
Proof.
  apply (addMention_mentions_once "u1" (sample_comment [] ["u1"; "u3"])).
  simpl. compute_done.
Defined.



(* ================================================================== *)
(** ** [parseCSVLine] *)

Section parseCSVLine.
Context (trim : string → string).

Lemma append_cons (x : ascii) (a b : string) :
  (String x a ++ b = String x (a ++ b))%string.
Proof. reflexivity. Qed.

Lemma append_nil (b : string) : ("" ++ b = b)%string.
Proof. reflexivity. Qed.

Lemma append_assoc (a b c : string) :
  ((a ++ b) ++ c = a ++ (b ++ c))%string.
Proof.
  induction a as [|x a IH]; [done|]. rewrite !append_cons. by rewrite IH.
Qed.

Lemma append_empty_r (a : string) : (a ++ "" = a)%string.
Proof.
  induction a as [|x a IH]; [done|]. rewrite append_cons. by rewrite IH.
Qed.

Lemma parseCSVLine_loop_prefix line pre result current inQuotes :
  parseCSVLine_loop trim line (pre ++ result) current inQuotes
  = pre ++ parseCSVLine_loop trim line result current inQuotes.
Proof.
  revert result current inQuotes.
  induction line as [|c line IH]; intros result current inQuotes; simpl.
  - by rewrite app_assoc.
  - destruct (Ascii.eqb c quote); [apply IH|].
    destruct (Ascii.eqb c comma && negb inQuotes); [|apply IH].
    by rewrite <-app_assoc, IH.
Qed.

Lemma parseCSVLine_loop_comma a b :
  ∀ result current inQuotes,
    quotes_closed a inQuotes = true →
    parseCSVLine_loop trim (a ++ String comma b) result current inQuotes
    = parseCSVLine_loop trim a result current inQuotes
      ++ parseCSVLine_loop trim b [] "" false.
Proof.
  induction a as [|c a IH]; intros result current inQuotes Hq;
    rewrite ?append_cons, ?append_nil; simpl in *.
  - destruct inQuotes; [done|]. simpl.
    rewrite <-(app_nil_r (result ++ [trim current])) at 1.
    apply parseCSVLine_loop_prefix.
  - destruct (Ascii.eqb c quote); [by apply IH|].
    destruct (Ascii.eqb c comma && negb inQuotes); by apply IH.
Qed.

(** X17.  A comma that follows a part with an even number of quote characters
    separates: the fields of the line are those of the part before the comma
    followed by those of the part after it. *)
Theorem parseCSVLine_splits_at_comma (a b : string) :
  quotes_closed a false = true →
  parseCSVLine trim (a ++ String comma b)
  = parseCSVLine trim a ++ parseCSVLine trim b.
Proof. apply parseCSVLine_loop_comma. Qed.

Lemma parseCSVLine_loop_quoted s :
  ∀ rest result current,
    has_char quote s = false →
    parseCSVLine_loop trim (s ++ String quote rest) result current true
    = parseCSVLine_loop trim rest result (current ++ s) false.
Proof.
  induction s as [|c s IH]; intros rest result current Hs;
    rewrite ?append_cons, ?append_nil; simpl in *.
  - by rewrite append_empty_r.
  - apply orb_false_iff in Hs as [Hc Hs]. rewrite Hc, andb_false_r.
    rewrite (IH _ _ _ Hs), append_assoc. done.
Qed.

Lemma parseCSVLine_loop_unterminated s :
  ∀ result current,
    has_char quote s = false →
    parseCSVLine_loop trim s result current true
    = result ++ [trim (current ++ s)].
Proof.
  induction s as [|c s IH]; intros result current Hs; simpl in *.
  - by rewrite append_empty_r.
  - apply orb_false_iff in Hs as [Hc Hs]. rewrite Hc, andb_false_r.
    rewrite (IH _ _ Hs), append_assoc. done.
Qed.

(** X18.  A field in quotes is taken whole: the commas in it do not
    separate, and the quote characters are dropped.  When the closing quote
    is missing, the rest of the line is one field. *)
Theorem parseCSVLine_quoted_field (s : string) :
  has_char quote s = false →
  parseCSVLine trim (String quote (s ++ String quote "")) = [trim s]
  ∧ parseCSVLine trim (String quote s) = [trim s].
Proof.
  intros Hs. unfold parseCSVLine. simpl. split.
  - by rewrite (parseCSVLine_loop_quoted s "" [] "" Hs).
  - by rewrite (parseCSVLine_loop_unterminated s [] "" Hs).
Qed.

Lemma parseCSVLine_loop_plain line :
  ∀ result current,
    has_char quote line = false →
    parseCSVLine_loop trim line result current false
    = result ++ (trim <$> split_comma line current).
Proof.
  induction line as [|c line IH]; intros result current Hq; simpl in *; [done|].
  apply orb_false_iff in Hq as [Hc Hq]. rewrite Hc, andb_true_r.
  destruct (Ascii.eqb c comma).
  - rewrite (IH _ _ Hq), <-app_assoc. done.
  - by apply IH.
Qed.

Lemma parseCSVLine_loop_nonempty line :
  ∀ result current inQuotes,
    parseCSVLine_loop trim line result current inQuotes ≠ [].
Proof.
  induction line as [|c line IH]; intros result current inQuotes; simpl.
  - by destruct result.
  - destruct (Ascii.eqb c quote); [apply IH|].
    destruct (Ascii.eqb c comma && negb inQuotes); apply IH.
Qed.

(** X19.  [parseCSVLine] always returns at least one field, and on a line
    without quote characters it returns what [line.split(',')] followed by
    [trim] returns, the parsing that [importFromCSV] does. *)
Theorem parseCSVLine_plain_split :
  (∀ line, parseCSVLine trim line ≠ [])
  ∧ (∀ line,
       has_char quote line = false →
       parseCSVLine trim line = trim <$> split_comma line "").
Proof.
  split.
  - intros line. apply parseCSVLine_loop_nonempty.
  - intros line Hq. by apply (parseCSVLine_loop_plain line []).
Qed.
End parseCSVLine.

Lemma parseCSVLine_splits_at_comma_witness :
  parseCSVLine ascii_trim
    (String quote ("x, y" ++ String quote "") ++ String comma " z ")
  = parseCSVLine ascii_trim (String quote ("x, y" ++ String quote ""))
    ++ parseCSVLine ascii_trim " z ".
Proof.
  apply (parseCSVLine_splits_at_comma ascii_trim
           (String quote ("x, y" ++ String quote "")) " z ").
  reflexivity.
Defined.

Lemma parseCSVLine_quoted_field_witness :
  parseCSVLine ascii_trim (String quote (" x, y" ++ String quote ""))
  = [ascii_trim " x, y"]
  ∧ parseCSVLine ascii_trim (String quote " x, y") = [ascii_trim " x, y"].
Proof.
  apply (parseCSVLine_quoted_field ascii_trim " x, y"). reflexivity.
Defined.

Lemma parseCSVLine_plain_split_witness :
  parseCSVLine ascii_trim "a, b ,,c"
  = ascii_trim <$> split_comma "a, b ,,c" "".
Proof.
  apply (parseCSVLine_plain_split ascii_trim). reflexivity.
Defined.

(* ================================================================== *)
(** ** [importTrainingItems] *)

Lemma array_get_set {A} (l : list (option A)) i (v : A) j :
  array_get (array_set i v l) j
  = if decide (j = i) then Some v else array_get l j.
Proof.
  unfold array_get, array_set.
  destruct (Nat.ltb_spec i (length l)) as [Hi|Hi].
  - destruct (decide (j = i)) as [->|Hne].
    + by rewrite list_lookup_insert_eq.
    + by rewrite list_lookup_insert_ne.
  - destruct (decide (j < length l)%nat) as [Hj|Hj].
    + rewrite lookup_app_l by done. rewrite decide_False by lia. done.
    + rewrite lookup_app_r by lia.
      rewrite (lookup_ge_None_2 l j) by lia.
      destruct (decide (j - length l < i - length l)%nat) as [Hlt|Hge].
      * rewrite lookup_app_l by (by rewrite length_replicate).
        rewrite lookup_replicate_2 by done. rewrite decide_False by lia. done.
      * rewrite lookup_app_r by (rewrite length_replicate; lia).
        rewrite length_replicate.
        destruct (decide (j = i)) as [->|Hne].
        -- by rewrite Nat.sub_diag.
        -- destruct (j - length l - (i - length l))%nat as [|k] eqn:E; [lia|].
           done.
Qed.

Lemma defined_array_get {A} (l : list (option A)) (pre : list (option A)) :
  defined l
  = omap (array_get (pre ++ l)) (seq (length pre) (length l)).
Proof.
  revert pre. induction l as [|x l IH]; intros pre; [done|].
  cbn [length seq]. unfold defined in *. cbn [omap list_omap].
  unfold array_get at 1. rewrite list_lookup_middle by done.
  specialize (IH (pre ++ [x])).
  rewrite <-app_assoc, length_app in IH. simpl in IH.
  replace (length pre + 1)%nat with (S (length pre)) in IH by lia.
  rewrite IH. by destruct x.
Qed.

Lemma omap_seq_none {A} (g : nat → option A) a k :
  (∀ i, (a ≤ i)%nat → g i = None) → omap g (seq a k) = [].
Proof.
  revert a. induction k as [|k IH]; intros a Hg; [done|].
  cbn. rewrite Hg by lia. apply IH. intros i Hi. apply Hg. lia.
Qed.

Lemma omap_seq_extend {A} (g : nat → option A) a k :
  (∀ i, (a ≤ i)%nat → g i = None) →
  omap g (seq 0 (a + k)) = omap g (seq 0 a).
Proof.
  intros Hg. rewrite seq_app, omap_app, (omap_seq_none g (0 + a) k).
  - apply app_nil_r.
  - intros i Hi. apply Hg. lia.
Qed.

Lemma defined_in_index_order {A} (l : list (option A)) (g : nat → option A) m :
  (∀ i, array_get l i = g i) →
  (∀ i, (m ≤ i)%nat → g i = None) →
  defined l = omap g (seq 0 m).
Proof.
  intros Hg Hm. rewrite (defined_array_get l []). simpl.
  assert (∀ k, omap (array_get l) (seq 0 k) = omap g (seq 0 k)) as Hext.
  { intros k. induction (seq 0 k) as [|x s IH]; [done|].
    cbn. by rewrite Hg, IH. }
  rewrite Hext.
  destruct (decide (length l ≤ m)%nat) as [Hle|Hgt].
  - replace m with (length l + (m - length l))%nat by lia.
    symmetry. apply omap_seq_extend.
    intros i Hi. rewrite <-Hg. unfold array_get.
    by rewrite lookup_ge_None_2.
  - replace (length l) with (m + (length l - m))%nat by lia.
    by apply omap_seq_extend.
Qed.

Lemma result_at_snoc events ev i :
  result_at (events ++ [ev]) i
  = match event_result ev with
    | Some v => if Nat.eqb (event_index ev) i then Some v else result_at events i
    | None => result_at events i
    end.
Proof. unfold result_at. by rewrite foldl_app. Qed.

Lemma result_at_out_of_range events i :
  (∀ ev, ev ∈ events → event_index ev ≠ i) → result_at events i = None.
Proof.
  induction events as [|ev events IH] using rev_ind; intros Hne; [done|].
  rewrite result_at_snoc.
  assert (result_at events i = None) as ->.
  { apply IH. intros ev' Hev'. apply Hne. apply elem_of_app. by left. }
  destruct (event_result ev); [|done].
  destruct (Nat.eqb_spec (event_index ev) i) as [Heq|]; [|done].
  destruct (Hne ev); [|done]. apply elem_of_app. right. by left.
Qed.

(** The state after any callbacks. *)
Lemma import_run total events :
  let st := foldl (import_step total) (mkImportState [] 0 []) events in
  completed st = length events
  ∧ (∀ i, array_get (results st) i = result_at events i)
  ∧ ((length events < total)%nat → emitted st = [])
  ∧ (length events = total → total ≠ O →
     emitted st = [defined (results st)]).
Proof.
  induction events as [|ev events IH] using rev_ind; simpl.
  - split; [done|]. split; [by intros []|]. split; [done|].
    intros <-. done.
  - rewrite foldl_app. cbn [foldl].
    destruct IH as (Hc & Hr & He & _).
    set (st := foldl (import_step total) (mkImportState [] 0 []) events) in *.
    unfold import_step. cbn [results completed emitted].
    rewrite length_app. cbn [length].
    replace (length events + 1)%nat with (S (length events)) by lia.
    split; [rewrite Hc; lia|]. split; [|split].
    + intros i. rewrite result_at_snoc.
      destruct ev as [index [result|]|index];
        cbn [event_result event_index]; try apply Hr.
      rewrite array_get_set, Hr.
      destruct (decide (i = index)) as [->|Hne].
      * by rewrite Nat.eqb_refl.
      * destruct (Nat.eqb_spec index i); [congruence|done].
    + intros Hlt. rewrite Hc.
      destruct (Nat.eqb_spec (S (length events)) total); [lia|].
      apply He. lia.
    + intros Hlen _. rewrite Hc.
      destruct (Nat.eqb_spec (S (length events)) total); [|lia].
      rewrite He by lia. done.
Qed.

(** X20.  When every creation reports back once, in whatever order,
    [importTrainingItems] emits nothing before the last report and then emits
    once: the created items in the order of the input, the failed creations
    left out.  For an empty input it never emits. *)
Theorem importTrainingItems_input_order (total : nat)
    (events : list ImportEvent) :
  event_index <$> events ≡ₚ seq 0 total →
  (∀ k, (k < total)%nat → importTrainingItems total (take k events) = [])
  ∧ importTrainingItems total events
    = match total with
      | O => []
      | S _ => [omap (result_at events) (seq 0 total)]
      end.
Proof.
  intros Hperm.
  assert (length events = total) as Hlen.
  { apply Permutation_length in Hperm.
    by rewrite length_fmap, length_seq in Hperm. }
  split.
  - intros k Hk. unfold importTrainingItems.
    destruct (import_run total (take k events)) as (_ & _ & He & _).
    apply He. rewrite length_take. lia.
  - unfold importTrainingItems.
    destruct (import_run total events) as (_ & Hr & He & Hfull).
    destruct total as [|t].
    + apply length_zero_iff_nil in Hlen. by subst events.
    + rewrite Hfull by done. f_equal.
      apply defined_in_index_order; [done|].
      intros i Hi. apply result_at_out_of_range. intros ev Hev Heq.
      assert (i ∈ seq 0 (S t)) as Hin.
      { rewrite <-Hperm, <-Heq. by apply list_elem_of_fmap_2. }
      apply elem_of_seq in Hin. lia.
Qed.

Lemma importTrainingItems_input_order_witness :
  let a := Item (sample "a" None 0) [] in
  let c := Item (sample "c" None 2) [] in
  importTrainingItems 3 [OnNext 2 (Some c); OnError 1; OnNext 0 (Some a)]
  = [[a; c]].
Proof.
  apply (importTrainingItems_input_order 3
           [OnNext 2 (Some (Item (sample "c" None 2) []));
            OnError 1;
            OnNext 0 (Some (Item (sample "a" None 0) []))]).
  compute_done.
Defined.

(* ================================================================== *)
(** ** The tree view: [isDescendant] and an accepted drop *)

Section isDescendant.
Context (nodes : list TreeNode) (ancestor : ref).

Lemma isDescendant_loop_true fuel :
  ∀ current,
    isDescendant_loop fuel nodes current ancestor = Some true →
    ∃ k, current ≫= climb nodes k = Some ancestor.
Proof.
  induction fuel as [|fuel IH]; intros [c|]; simpl; try done.
  - destruct (Nat.eqb_spec c ancestor) as [->|]; [|done].
    intros _. by exists O.
  - destruct (Nat.eqb_spec c ancestor) as [->|]; [intros _; by exists O|].
    intros (k & Hk)%IH. by exists (S k).
Qed.

Lemma isDescendant_loop_false fuel :
  ∀ current,
    isDescendant_loop fuel nodes current ancestor = Some false →
    ∀ k, current ≫= climb nodes k ≠ Some ancestor.
Proof.
  induction fuel as [|fuel IH]; intros [c|]; simpl; try done.
  - by destruct (Nat.eqb c ancestor).
  - destruct (Nat.eqb_spec c ancestor) as [->|Hne]; [done|].
    intros Hf [|k]; simpl; [congruence|]. by apply IH.
Qed.

Lemma isDescendant_loop_finds fuel :
  ∀ current k,
    (k ≤ fuel)%nat →
    current ≫= climb nodes k = Some ancestor →
    isDescendant_loop fuel nodes current ancestor = Some true.
Proof.
  induction fuel as [|fuel IH]; intros [c|] k Hk; simpl; try done.
  - destruct k; [|lia]. simpl. intros [= ->]. by rewrite Nat.eqb_refl.
  - destruct (Nat.eqb_spec c ancestor) as [->|Hne]; [done|].
    destruct k as [|k]; simpl; [congruence|]. apply IH. lia.
Qed.

Lemma isDescendant_loop_more_fuel fuel extra :
  ∀ current b,
    isDescendant_loop fuel nodes current ancestor = Some b →
    isDescendant_loop (fuel + extra) nodes current ancestor = Some b.
Proof.
  induction fuel as [|fuel IH]; intros [c|] b; simpl.
  - destruct (Nat.eqb_spec c ancestor) as [->|]; [|done].
    intros <-. destruct extra; simpl; by rewrite Nat.eqb_refl.
  - by destruct extra.
  - destruct (Nat.eqb c ancestor); [done|]. apply IH.
  - done.
Qed.

(** X21.  [isDescendant(node, ancestor)] answers [true] only if [ancestor] is
    reached from [node] by parent pointers, and then at the latest when the
    loop has run as many times as there are pointers to follow; it answers
    [false] only if no chain of parent pointers from [node] reaches
    [ancestor]; an answer does not change with more loop iterations. *)
Theorem isDescendant_reaches (fuel : nat) (node : ref) :
  (isDescendant fuel nodes node ancestor = Some true →
   ∃ k, climb nodes (S k) node = Some ancestor)
  ∧ (isDescendant fuel nodes node ancestor = Some false →
     ∀ k, climb nodes (S k) node ≠ Some ancestor)
  ∧ (∀ k, (k ≤ fuel)%nat → climb nodes (S k) node = Some ancestor →
          isDescendant fuel nodes node ancestor = Some true)
  ∧ (∀ b extra, isDescendant fuel nodes node ancestor = Some b →
                isDescendant (fuel + extra) nodes node ancestor = Some b).
Proof.
  unfold isDescendant. split; [apply isDescendant_loop_true|].
  split; [apply isDescendant_loop_false|].
  split; [apply isDescendant_loop_finds|].
  intros b extra. apply isDescendant_loop_more_fuel.
Qed.
End isDescendant.

Lemma isDescendant_reaches_witness :
  let nodes :=
    [ mkTreeNode (sample "a" None 0) false false [1%nat] None 0;
      mkTreeNode (sample "b" (Some "a") 0) false false [2%nat] (Some 0%nat) 1;
      mkTreeNode (sample "c" (Some "b") 0) false false [] (Some 1%nat) 2 ] in
  isDescendant 1 nodes 2 0 = Some true.
Proof.
  apply (isDescendant_reaches _ 0%nat 1 2%nat) with (k := 1%nat).
  - lia.
  - reflexivity.
Defined.

Lemma onDrop_accepted (fuel : nat) (now : Date)
    (nodes : list TreeNode) (targetNode dragged : ref) (st : TreeState)
    (db : table) (d t : TreeNode) (row : ItemFields) :
  draggedNode st = Some dragged →
  dragged ≠ targetNode →
  isDescendant fuel nodes targetNode dragged = Some false →
  nodes !! dragged = Some d →
  nodes !! targetNode = Some t →
  db !! id (item d) = Some row →
  onDrop fuel now nodes targetNode st db
  = Some (Normal
            (set_draggedNode None st,
             <[id (item d) :=
                 set_updated_at now
                   (set_level (depth t + 1)
                      (set_parent_id (Some (id (item t))) row))]> db)).
Proof.
  intros Hd Hne Hdesc Hdn Htn Hrow. unfold onDrop.
  rewrite Hd. destruct (Nat.eqb_spec dragged targetNode); [done|].
  rewrite Hdesc, Hdn, Htn.
  unfold updateTrainingItem, supabase_update. rewrite Hrow.
  reflexivity.
Qed.

(** X22.  A drop that is accepted ends the drag and writes the dragged
    item's row and nothing else: the row gets the target's id as
    [parent_id] and the target's depth plus one as [level]; its
    [order_index], its status and progress, and every other row stay as
    they were. *)
Theorem onDrop_writes_dragged_row (fuel : nat) (now : Date)
    (nodes : list TreeNode) (targetNode dragged : ref) (st : TreeState)
    (db : table) (d t : TreeNode) (row : ItemFields) :
  draggedNode st = Some dragged →
  dragged ≠ targetNode →
  isDescendant fuel nodes targetNode dragged = Some false →
  nodes !! dragged = Some d →
  nodes !! targetNode = Some t →
  db !! id (item d) = Some row →
  ∃ st' db' row',
    onDrop fuel now nodes targetNode st db = Some (Normal (st', db'))
    ∧ draggedNode st' = None
    ∧ db' !! id (item d) = Some row'
    ∧ parent_id row' = Some (id (item t))
    ∧ level row' = depth t + 1
    ∧ order_index row' = order_index row
    ∧ status row' = status row
    ∧ progress_percentage row' = progress_percentage row
    ∧ (∀ k, k ≠ id (item d) → db' !! k = db !! k).
Proof.
  intros Hd Hne Hdesc Hdn Htn Hrow.
  do 3 eexists. split; [by eapply onDrop_accepted|].
  split; [done|]. split; [apply lookup_insert_eq|].
  repeat (split; [done|]).
  intros k Hk. by apply lookup_insert_ne.
Qed.

Lemma onDrop_writes_dragged_row_witness :
  let nodes :=
    [ mkTreeNode (sample "a" None 5) false false [] None 0;
      mkTreeNode (sample "b" None 1) false false [] None 0 ] in
  let st := mkTreeState [0%nat; 1%nat] None (Some 0%nat) "" true None in
  let db : table := {[ "a" := sample "a" None 5; "b" := sample "b" None 1 ]} in
  ∃ st' db' row',
    onDrop 2 7 nodes 1 st db = Some (Normal (st', db'))
    ∧ draggedNode st' = None
    ∧ db' !! "a" = Some row'
    ∧ parent_id row' = Some "b"
    ∧ level row' = 1
    ∧ order_index row' = 5
    ∧ status row' = NOT_STARTED
    ∧ progress_percentage row' = 0%Q
    ∧ (∀ k, k ≠ "a" → db' !! k = db !! k).
Proof.
  apply (onDrop_writes_dragged_row 2 7 _ 1%nat 0%nat _ _
           (mkTreeNode (sample "a" None 5) false false [] None 0)
           (mkTreeNode (sample "b" None 1) false false [] None 0)
           (sample "a" None 5)); try reflexivity.
  lia.
Defined.

(* ================================================================== *)
(** ** The tree view: [buildTreeStructure] *)

Lemma create_nodes_fold items :
  ∀ (nodes0 : list TreeNode) (m0 : gmap string ref),
    (foldl (fun '(nodes, nodeMap) item_ =>
              (nodes ++ [new_node item_],
               <[id item_ := length nodes]> nodeMap))
           (nodes0, m0) items).1
    = nodes0 ++ (new_node <$> items).
Proof.
  induction items as [|x items IH]; intros nodes0 m0; simpl.
  - by rewrite app_nil_r.
  - rewrite IH, <-app_assoc. done.
Qed.

Lemma create_nodes_nodes items : (create_nodes items).1 = new_node <$> items.
Proof. unfold create_nodes. by rewrite create_nodes_fold. Qed.

Lemma node_order_index_items (nodes nodes' : list TreeNode) :
  item <$> nodes' = item <$> nodes →
  ∀ r, node_order_index nodes' r = node_order_index nodes r.
Proof.
  intros Hi r. unfold node_order_index.
  assert ((item <$> nodes') !! r = (item <$> nodes) !! r) as Hr by by rewrite Hi.
  rewrite !list_lookup_fmap in Hr.
  destruct (nodes' !! r), (nodes !! r); simplify_eq/=; congruence.
Qed.

Lemma alter_keeps_items (g : TreeNode → TreeNode) r (nodes : list TreeNode) :
  (∀ nd, item (g nd) = item nd) →
  item <$> alter g r nodes = item <$> nodes.
Proof.
  intros Hg. apply list_eq. intros i.
  rewrite !list_lookup_fmap, list_lookup_alter.
  destruct (decide (r = i)) as [->|]; [|done].
  destruct (nodes !! i); simpl; [by rewrite Hg|done].
Qed.

Lemma sorted_order_index_items (nodes nodes' : list TreeNode) l :
  item <$> nodes' = item <$> nodes →
  Sorted Z.le (node_order_index nodes <$> l) →
  Sorted Z.le (node_order_index nodes' <$> l).
Proof.
  intros Hi.
  assert (node_order_index nodes' <$> l = node_order_index nodes <$> l) as ->;
    [|done].
  induction l as [|x l IH]; [done|]. cbn.
  by rewrite IH, (node_order_index_items nodes nodes' Hi).
Qed.

Lemma link_node_invariant nodeMap st item_ :
  children_ascending_in st.2 →
  item <$> (link_node nodeMap st item_).2 = item <$> st.2
  ∧ children_ascending_in (link_node nodeMap st item_).2.
Proof.
  destruct st as [rootNodes nodes]. simpl. intros Hasc.
  unfold link_node.
  destruct (nodeMap !! id item_) as [node|]; [|done].
  destruct (truthy (parent_id item_)); [|done].
  destruct (parent_id item_ ≫= (fun pid => nodeMap !! pid)) as [p|];
    [|done].
  simpl.
  set (nodes1 := alter (set_parent_depth p (depth_of nodes p + 1)) node nodes).
  assert (item <$> nodes1 = item <$> nodes) as Hi1
    by by apply alter_keeps_items.
  set (nodes2 := alter _ p nodes1).
  assert (item <$> nodes2 = item <$> nodes1) as Hi2
    by by apply alter_keeps_items.
  split; [congruence|].
  assert (children_ascending_in nodes1) as Hasc1.
  { intros r nd Hr. unfold nodes1 in Hr. rewrite list_lookup_alter in Hr.
    apply (sorted_order_index_items nodes); [done|].
    destruct (decide (node = r)) as [->|].
    - destruct (nodes !! r) as [nd0|] eqn:Hnd0; simplify_eq/=.
      by apply (Hasc r nd0).
    - by apply (Hasc r nd). }
  intros r nd Hr. unfold nodes2 in Hr. rewrite list_lookup_alter in Hr.
  destruct (decide (p = r)) as [->|].
  - destruct (nodes1 !! r) as [nd0|] eqn:Hnd0; simplify_eq/=.
    apply (sorted_order_index_items nodes1); [done|].
    apply array_sort_sorted.
  - apply (sorted_order_index_items nodes1); [done|]. by apply (Hasc1 r nd).
Qed.

Lemma link_nodes_invariant nodeMap items :
  ∀ st,
    children_ascending_in st.2 →
    item <$> (foldl (link_node nodeMap) st items).2 = item <$> st.2
    ∧ children_ascending_in (foldl (link_node nodeMap) st items).2.
Proof.
  induction items as [|x items IH]; intros st Hasc; simpl; [done|].
  destruct (link_node_invariant nodeMap st x Hasc) as [Hi Hasc'].
  destruct (IH _ Hasc') as [Hi' Hasc'']. split; [congruence|done].
Qed.

(** X23.  [buildTreeStructure] makes one node per item, in the order of the
    input, and returns the root nodes and every node's [children] in
    ascending [order_index]. *)
Theorem buildTreeStructure_sorted (items : list ItemFields) :
  item <$> (buildTreeStructure items).2 = items
  ∧ Sorted Z.le (node_order_index (buildTreeStructure items).2
                   <$> (buildTreeStructure items).1)
  ∧ children_ascending_in (buildTreeStructure items).2.
Proof.
  unfold buildTreeStructure.
  pose proof (create_nodes_nodes items) as Hn.
  destruct (create_nodes items) as [nodes0 nodeMap]. simpl in Hn. subst nodes0.
  destruct (link_nodes_invariant nodeMap items ([], new_node <$> items))
    as [Hi Hasc].
  { intros r nd Hr. simpl in Hr. rewrite list_lookup_fmap in Hr.
    destruct (items !! r); simplify_eq/=. constructor. }
  destruct (foldl (link_node nodeMap) ([], new_node <$> items) items)
    as [rootNodes nodes]. simpl in *.
  split; [|split; [apply array_sort_sorted|done]].
  rewrite Hi. clear. induction items as [|x l IH]; [done|]. cbn. by rewrite IH.
Qed.

Lemma link_roots_only nodeMap items :
  Forall (fun item_ => truthy (parent_id item_) = false) items →
  ∀ rootNodes nodes,
    (foldl (link_node nodeMap) (rootNodes, nodes) items).2 = nodes.
Proof.
  induction 1 as [|x items Hx _ IH]; intros rootNodes nodes; simpl; [done|].
  rewrite Hx. destruct (nodeMap !! id x); apply IH.
Qed.

(** X24.  When no item of the input has a [parent_id], every node that
    [buildTreeStructure] makes has no parent, depth 0 and no children. *)
Theorem buildTreeStructure_roots_only (items : list ItemFields) :
  Forall (fun item_ => truthy (parent_id item_) = false) items →
  (buildTreeStructure items).2 = new_node <$> items.
Proof.
  intros Hroots. unfold buildTreeStructure.
  pose proof (create_nodes_nodes items) as Hn.
  destruct (create_nodes items) as [nodes0 nodeMap]. simpl in Hn. subst nodes0.
  pose proof (link_roots_only nodeMap items Hroots [] (new_node <$> items)) as Hl.
  by destruct (foldl (link_node nodeMap) ([], new_node <$> items) items).
Qed.

Lemma buildTreeStructure_roots_only_witness :
  (buildTreeStructure [sample "a" None 1; sample "b" None 0]).2
  = new_node <$> [sample "a" None 1; sample "b" None 0].
Proof.
  apply buildTreeStructure_roots_only. repeat constructor.
Defined.

(** X25.  The tree view is fed the root list that [buildTrainingTree]
    returns; built from it, the tree view has a node for each root and for
    nothing else, and none of these nodes has a parent or children. *)
Theorem tree_view_of_service_roots (items : list ItemFields) (extra : nat) :
  ∃ roots h,
    buildTrainingTree (S (length items) + extra) items = Some (roots, h)
    ∧ (buildTreeStructure (deref h roots)).2 = new_node <$> deref h roots
    ∧ length (buildTreeStructure (deref h roots)).2 = length roots.
Proof.
  destruct (buildTrainingTree_spec items extra)
    as (roots & h & Hrun & [Hf _] & Hr & _).
  simpl in Hf.
  assert (∀ x, x ∈ roots → is_root items x = true) as Hroot.
  { intros x Hx. rewrite Hr in Hx. by apply list_elem_of_filter in Hx as [? _]. }
  assert (Forall (fun item_ => truthy (parent_id item_) = false)
                 (deref h roots)) as Hall.
  { apply Forall_forall. intros f Hin. unfold deref in Hin.
    apply list_elem_of_omap in Hin as (x & Hx & Hfx).
    apply Hroot in Hx. unfold is_root in Hx.
    apply andb_true_iff in Hx as [_ Hx%negb_true_iff].
    rewrite parent_id_of_allocate in Hx.
    rewrite <-list_lookup_fmap, Hf in Hfx. by rewrite Hfx in Hx. }
  exists roots, h. split; [done|].
  rewrite (buildTreeStructure_roots_only _ Hall). split; [done|].
  rewrite length_fmap. unfold deref.
  assert (∀ x, x ∈ roots → is_Some (obj_fields <$> h !! x)) as Hsome.
  { intros x Hx%Hroot. apply is_root_lt in Hx.
    rewrite <-(fields_length h items Hf) in Hx.
    destruct (lookup_lt_is_Some_2 h x Hx) as [o ->]. by eexists. }
  clear -Hsome. induction roots as [|x l IH]; [done|].
  cbn. destruct (Hsome x) as [f ->]; [by left|]. simpl. f_equal.
  apply IH. intros y Hy. apply Hsome. by right.
Qed.

(* ================================================================== *)
(** ** [buildTrainingTree]: the arrays are the stable sort of the input order *)

Lemma sort_insert_ext {A} (c c' : A → A → Z) x l :
  (∀ a b, c a b = c' a b) → sort_insert c x l = sort_insert c' x l.
Proof.
  intros Hc. induction l as [|y l IH]; simpl; [done|].
  by rewrite Hc, IH.
Qed.

Lemma array_sort_ext {A} (c c' : A → A → Z) l :
  (∀ a b, c a b = c' a b) → array_sort c l = array_sort c' l.
Proof.
  intros Hc. induction l as [|x l IH]; simpl; [done|].
  fold (array_sort c l) (array_sort c' l).
  by rewrite IH, (sort_insert_ext c c' x _ Hc).
Qed.

(** Sorting an array that is in ascending order leaves it as it is. *)
Lemma array_sort_ascending_id {A} (key : A → Z) l :
  Sorted Z.le (key <$> l) →
  array_sort (fun a b => key a - key b) l = l.
Proof.
  induction l as [|x l IH]; intros Hs; simpl; [done|].
  fold (array_sort (fun a b => key a - key b) l).
  inversion Hs as [|? ? Hs' Hhd]; subst. rewrite (IH Hs').
  destruct l as [|y l]; simpl; [done|].
  inversion Hhd; subst.
  destruct (Z.leb_spec (key x - key y) 0); [done|lia].
Qed.

Lemma by_order_index_fields (h h' : heap) :
  obj_fields <$> h' = obj_fields <$> h →
  ∀ a b, by_order_index h' a b = by_order_index h a b.
Proof.
  intros Hf a b. unfold by_order_index.
  by rewrite !(order_index_of_fields h' h Hf).
Qed.

#[local] Instance sorted_or_same_refl : Reflexive sorted_or_same.
Proof. intros m. split; [done|]. intros a. by left. Qed.

#[local] Instance sorted_or_same_trans : Transitive sorted_or_same.
Proof.
  intros m1 m2 m3 [Hf H12] [Hf' H23]. split; [congruence|].
  intros a.
  assert (∀ l, array_sort (by_order_index m2.2) l
               = array_sort (by_order_index m1.2) l) as Hcmp
    by (intros l; apply array_sort_ext, by_order_index_fields, Hf).
  destruct (H23 a) as [E23|E23], (H12 a) as [E12|E12]; rewrite E23.
  - by left.
  - by right.
  - right. by rewrite Hcmp, E12.
  - right. rewrite Hcmp, E12.
    apply (array_sort_ascending_id (order_index_of m1.2)).
    apply array_sort_sorted.
Qed.

Lemma forEach_preserves {A S} (R : S → S → Prop) (l : list A)
    (f : A → S → option S) :
  Reflexive R → Transitive R →
  (∀ x s s', f x s = Some s' → R s s') →
  ∀ s0 s', forEach l f s0 = Some s' → R s0 s'.
Proof.
  intros HR HT Hstep. induction l as [|x l IH]; intros s0 s'; simpl.
  - by intros [= ->].
  - destruct (f x s0) as [s1|] eqn:Hf; [|done].
    intros Hrun. etrans; [by eapply Hstep|by apply IH].
Qed.

Lemma write_sorted_or_same a (m : list ref * heap) :
  sorted_or_same m
    (write a (array_sort (by_order_index m.2) (read a m)) m).
Proof.
  split; [apply write_fields|]. intros b.
  destruct (decide (a = b)) as [<-|Hne].
  - right. apply read_write_sorted.
  - left. by apply read_write_other.
Qed.

Lemma sortItems_sorted_or_same fuel :
  ∀ a m m', sortItems fuel a m = Some m' → sorted_or_same m m'.
Proof.
  induction fuel as [|fuel IH]; intros a m m'; simpl; [done|].
  intros Hrun. etrans; [apply (write_sorted_or_same a m)|].
  eapply (forEach_preserves sorted_or_same); [apply _|apply _| |done].
  intros x s s'. apply IH.
Qed.

(** X26.  The root list and the [children] list of every node of the forest
    are exactly the stable sort, by [order_index], of the roots and of the
    node's children taken in the order of the input; so siblings with the
    same [order_index] stay in the order of the input. *)
Theorem buildTrainingTree_stable (items : list ItemFields) (extra : nat) :
  ∃ roots h,
    buildTrainingTree (S (length items) + extra) items = Some (roots, h)
    ∧ roots
      = array_sort (by_order_index (allocate items))
          (filter (fun c => is_root items c = true) (seq 0 (length items)))
    ∧ (∀ y, in_forest h roots y →
            kids h y
            = array_sort (by_order_index (allocate items))
                (filter (fun c => parentOf items c = Some y)
                        (seq 0 (length items))))
    ∧ (∀ z, filter (fun c => order_index_of (allocate items) c = z) roots
            = filter (fun c => order_index_of (allocate items) c = z)
                (filter (fun c => is_root items c = true)
                        (seq 0 (length items))))
    ∧ (∀ y z, in_forest h roots y →
              filter (fun c => order_index_of (allocate items) c = z)
                     (kids h y)
              = filter (fun c => order_index_of (allocate items) c = z)
                  (filter (fun c => parentOf items c = Some y)
                          (seq 0 (length items)))).
Proof.
  destruct (buildTrainingTree_spec items extra)
    as (roots & h & Hrun & Hl & _ & _ & Hasc & Hsub).
  pose proof Hrun as Hrun'. unfold buildTrainingTree in Hrun'.
  fold (itemMap_of items) in Hrun'.
  destruct (link_items_spec items) as (Hf0 & Hr0 & Hk0).
  set (m0 := link_items (itemMap_of items) (allocate items)
               (seq 0 (length items))) in *.
  apply sortItems_sorted_or_same in Hrun' as [Hf Hsame]. simpl in Hf.
  assert (∀ a b, by_order_index m0.2 a b = by_order_index (allocate items) a b)
    as Hcmp0.
  { apply by_order_index_fields. by rewrite Hf0, allocate_fields. }
  assert (∀ a b, by_order_index h a b = by_order_index m0.2 a b) as Hcmph
    by by apply by_order_index_fields.
  assert (∀ a, ascending h (read a (roots, h)) →
               read a (roots, h)
               = array_sort (by_order_index (allocate items)) (read a m0))
    as Hexact.
  { intros a Ha. rewrite <-(array_sort_ext _ _ _ Hcmp0).
    destruct (Hsame a) as [E|E]; [|done].
    rewrite <-E. symmetry.
    rewrite (array_sort_ext _ (by_order_index h)) by (intros; by rewrite Hcmph).
    by apply (array_sort_ascending_id (order_index_of h)). }
  assert (roots = array_sort (by_order_index (allocate items))
                    (filter (fun c => is_root items c = true)
                            (seq 0 (length items)))) as Hroots.
  { rewrite <-Hr0. by apply (Hexact RootItems). }
  assert (∀ y, in_forest h roots y →
            kids h y
            = array_sort (by_order_index (allocate items))
                (filter (fun c => parentOf items c = Some y)
                        (seq 0 (length items)))) as Hkids.
  { intros y Hy. rewrite <-Hk0. apply (Hexact (ChildrenOf y)). simpl.
    destruct (in_forest_desc items roots h y Hl Hy) as (r & Hr & Hd).
    by apply (Hsub r). }
  exists roots, h. split; [done|]. split; [done|]. split; [done|]. split.
  - intros z. rewrite Hroots.
    apply (array_sort_stable (order_index_of (allocate items))).
  - intros y z Hy. rewrite (Hkids y Hy).
    apply (array_sort_stable (order_index_of (allocate items))).
Qed.

(* ================================================================== *)
(** ** [buildTreeStructure] on items with distinct ids *)

Lemma create_nodes_snoc items x :
  create_nodes (items ++ [x])
  = ((create_nodes items).1 ++ [new_node x],
     <[id x := length (create_nodes items).1]> (create_nodes items).2).
Proof.
  unfold create_nodes. rewrite foldl_app. simpl.
  by destruct (foldl _ _ items).
Qed.

Lemma create_nodes_lookup items :
  NoDup (id <$> items) →
  ∀ key r, (create_nodes items).2 !! key = Some r
           ↔ ∃ it, items !! r = Some it ∧ id it = key.
Proof.
  induction items as [|x items IH] using rev_ind; intros Hnd key r.
  - simpl. rewrite lookup_empty. split; [done|]. by intros (? & ? & _).
  - rewrite fmap_app in Hnd. apply NoDup_app in Hnd as (Hnd & Hx & _).
    assert (∀ it, it ∈ items → id it ≠ id x) as Hfresh.
    { intros it Hit Heq. apply (Hx (id x)); [|by left].
      rewrite <-Heq. by apply list_elem_of_fmap_2. }
    rewrite create_nodes_snoc. simpl.
    rewrite create_nodes_nodes, length_fmap.
    destruct (decide (id x = key)) as [<-|Hne].
    + rewrite lookup_insert_eq. split.
      * intros [= <-]. exists x. split; [|done].
        by apply list_lookup_middle.
      * intros (it & Hit & Hid). f_equal.
        apply lookup_snoc_Some in Hit as [[_ Hit]|[-> _]]; [|done].
        apply list_elem_of_lookup_2 in Hit. by destruct (Hfresh it).
    + rewrite lookup_insert_ne by done. rewrite (IH Hnd). split.
      * intros (it & Hit & Hid). exists it. split; [|done].
        by apply lookup_app_l_Some.
      * intros (it & Hit & Hid). exists it. split; [|done].
        apply lookup_snoc_Some in Hit as [[_ Hit]|[_ <-]]; [done|].
        congruence.
Qed.

Lemma item_new_node (l : list ItemFields) : item <$> (new_node <$> l) = l.
Proof. induction l as [|x l IH]; [done|]. cbn. by rewrite IH. Qed.

Section distinct_ids.
Context (items : list ItemFields) (Hids : NoDup (id <$> items)).
Let n := length items.
Let nodeMap := (create_nodes items).2.

(** The parent the second loop finds for the item at position [c]. *)
Let found_parent (c : ref) : option ref :=
  match items !! c with
  | Some it =>
      if truthy (parent_id it)
      then parent_id it ≫= (fun pid => nodeMap !! pid)
      else None
  | None => None
  end.

Let linked_upto (k : nat) (st : list ref * list TreeNode) : Prop :=
  item <$> st.2 = items
  ∧ (∀ c, parent_of st.2 c
          = if decide (c < k)%nat then found_parent c else None)
  ∧ (∀ c p nd, st.2 !! p = Some nd →
               (c ∈ node_children nd ↔ (c < k)%nat ∧ found_parent c = Some p)).

Lemma nodeMap_own_id c it : items !! c = Some it → nodeMap !! id it = Some c.
Proof. intros Hc. apply (create_nodes_lookup items Hids). eauto. Qed.

Lemma nodeMap_range key r : nodeMap !! key = Some r → (r < n)%nat.
Proof.
  intros (it & Hit & _)%(create_nodes_lookup items Hids).
  by eapply lookup_lt_Some.
Qed.

Lemma link_node_step k it st :
  items !! k = Some it →
  linked_upto k st →
  linked_upto (S k) (link_node nodeMap st it).
Proof.
  intros Hk (Hi & Hpar & Hch). destruct st as [rootNodes nodes]. simpl in *.
  unfold link_node. rewrite (nodeMap_own_id k it Hk).
  assert (found_parent k
          = if truthy (parent_id it)
            then parent_id it ≫= (fun pid => nodeMap !! pid) else None) as Hfk.
  { unfold found_parent. by rewrite Hk. }
  assert (length nodes = n) as Hlen.
  { unfold n. rewrite <-Hi. by rewrite length_fmap. }
  assert (∀ c, (if decide (c < S k)%nat then found_parent c else None)
               = if decide (c = k) then found_parent k
                 else if decide (c < k)%nat then found_parent c else None)
    as Hcase.
  { intros c. destruct (decide (c = k)) as [->|Hne].
    - rewrite decide_True by lia. done.
    - destruct (decide (c < k)%nat).
      + rewrite decide_True by lia. done.
      + rewrite decide_False by lia. done. }
  assert (∀ c p, ((c < S k)%nat ∧ found_parent c = Some p)
                 ↔ ((c < k)%nat ∧ found_parent c = Some p)
                   ∨ (c = k ∧ found_parent k = Some p)) as Hcase'.
  { intros c p. split.
    - intros [Hc Hp]. destruct (decide (c = k)) as [->|]; [by right|].
      left. split; [lia|done].
    - intros [[Hc Hp]|[-> Hp]]; (split; [lia|done]). }
  destruct (truthy (parent_id it)) eqn:Ht.
  - destruct (parent_id it ≫= (fun pid => nodeMap !! pid)) as [p|] eqn:Hp.
    + simpl.
      set (nodes1 := alter (set_parent_depth p (depth_of nodes p + 1)) k nodes).
      set (nodes2 := alter _ p nodes1).
      assert (item <$> nodes1 = item <$> nodes) as Hi1
        by by apply alter_keeps_items.
      assert (item <$> nodes2 = item <$> nodes1) as Hi2
        by by apply alter_keeps_items.
      assert (∀ c, parent_of nodes1 c
                   = if decide (c = k) then Some p else parent_of nodes c)
        as Hpar1.
      { intros c. unfold parent_of, nodes1. rewrite list_lookup_alter.
        destruct (decide (k = c)) as [->|Hne].
        - rewrite decide_True by done.
          destruct (lookup_lt_is_Some_2 nodes c) as [nd ->]; [|done].
          rewrite Hlen. by eapply lookup_lt_Some.
        - rewrite decide_False by congruence. done. }
      assert (∀ c, parent_of nodes2 c = parent_of nodes1 c) as Hpar2.
      { intros c. unfold parent_of, nodes2. rewrite list_lookup_alter.
        destruct (decide (p = c)) as [->|]; [|done].
        by destruct (nodes1 !! c). }
      split; [simpl; by rewrite Hi2, Hi1|]. split; simpl.
      * intros c. rewrite Hpar2, Hpar1, Hcase, Hfk.
        destruct (decide (c = k)); [done|]. apply Hpar.
      * intros c q nd Hq. rewrite Hcase', Hfk.
        unfold nodes2 in Hq. rewrite list_lookup_alter in Hq.
        assert (∀ nd1, nodes1 !! q = Some nd1 →
                  ∃ nd0, nodes !! q = Some nd0
                         ∧ node_children nd1 = node_children nd0) as Hsame.
        { intros nd1 H1. unfold nodes1 in H1. rewrite list_lookup_alter in H1.
          destruct (decide (k = q)) as [->|].
          - destruct (nodes !! q) as [nd0|]; simplify_eq/=. eauto.
          - eauto. }
        destruct (decide (p = q)) as [->|Hne].
        -- destruct (nodes1 !! q) as [nd1|] eqn:H1; simplify_eq/=.
           destruct (Hsame nd1 eq_refl) as (nd0 & H0 & Hc0).
           rewrite (array_sort_perm (node_order_index nodes1)), Hc0.
           rewrite elem_of_app, list_elem_of_singleton, (Hch c q nd0 H0).
           split; intros [?|?]; auto. destruct H as [-> _]. by right.
        -- destruct (Hsame nd Hq) as (nd0 & H0 & Hc0).
           rewrite Hc0, (Hch c q nd0 H0). split; [by left|].
           intros [?|[_ ?]]; [done|congruence].
    + simpl. split; [done|]. split; simpl.
      * intros c. rewrite Hcase, Hfk. destruct (decide (c = k)) as [->|]; [|apply Hpar].
        rewrite Hpar. by rewrite decide_False by lia.
      * intros c q nd Hq. rewrite Hcase', Hfk, (Hch c q nd Hq).
        split; [by left|]. intros [?|[_ ?]]; [done|congruence].
  - simpl. split; [done|]. split; simpl.
    + intros c. rewrite Hcase, Hfk. destruct (decide (c = k)) as [->|]; [|apply Hpar].
      rewrite Hpar. by rewrite decide_False by lia.
    + intros c q nd Hq. rewrite Hcase', Hfk, (Hch c q nd Hq).
      split; [by left|]. intros [?|[_ ?]]; [done|congruence].
Qed.

Lemma link_nodes_upto k :
  (k ≤ n)%nat →
  linked_upto k (foldl (link_node nodeMap) ([], new_node <$> items)
                       (take k items)).
Proof.
  induction k as [|k IH]; intros Hk.
  - simpl. split; [|split]; simpl.
    + apply item_new_node.
    + intros c. unfold parent_of. rewrite list_lookup_fmap.
      by destruct (items !! c).
    + intros c p nd Hp. rewrite list_lookup_fmap in Hp.
      destruct (items !! p); simplify_eq/=. split; [|lia].
      intros H. by inversion H.
  - destruct (lookup_lt_is_Some_2 items k) as [it Hit]; [unfold n in Hk; lia|].
    rewrite (take_S_r _ _ _ Hit), foldl_app. simpl.
    apply link_node_step; [done|]. apply IH. lia.
Qed.

(** X27.  When the items have distinct ids, the tree view's parent pointers
    and [children] arrays agree: a node is in the [children] of exactly the
    node its [parent] points to. *)
Theorem buildTreeStructure_parent_children :
  ∀ c p nd,
    (buildTreeStructure items).2 !! p = Some nd →
    (c ∈ node_children nd
     ↔ parent_of (buildTreeStructure items).2 c = Some p).
Proof.
  intros c p nd.
  pose proof (link_nodes_upto n (Nat.le_refl _)) as (Hi & Hpar & Hch).
  unfold n in Hpar, Hch, Hi. rewrite firstn_all in Hpar, Hch, Hi.
  unfold buildTreeStructure.
  pose proof (create_nodes_nodes items) as Hn.
  fold nodeMap in Hpar, Hch, Hi. unfold nodeMap in *.
  destruct (create_nodes items) as [nodes0 m]. simpl in *. subst nodes0.
  destruct (foldl (link_node m) ([], new_node <$> items) items)
    as [rootNodes nodes]. simpl in *.
  intros Hp. rewrite (Hch c p nd Hp), Hpar.
  destruct (decide (c < length items)%nat); [tauto|].
  split; [lia|done].
Qed.
End distinct_ids.

Lemma buildTreeStructure_parent_children_witness :
  parent_of
    (buildTreeStructure [sample "b" (Some "a") 0; sample "a" None 0]).2 0
  = Some 1%nat.
Proof.
  assert (NoDup (id <$> [sample "b" (Some "a") 0; sample "a" None 0])) as Hnd
    by compute_done.
  destruct (buildTreeStructure_parent_children
              [sample "b" (Some "a") 0; sample "a" None 0] Hnd 0%nat 1%nat
              (mkTreeNode (sample "a" None 0) false false [0%nat] None 0))
    as [Hto _]; [by vm_compute|].
  apply Hto. by left.
Defined.

(* ================================================================== *)
(** ** More on moving and on the mean *)

(** X28.  [moveTrainingItem] with a parent id writes the row of the item and
    nothing else: the row gets the [parent_id] and the [order_index] asked
    for; its [level], status and progress, and every other row stay as they
    were. *)
Theorem moveTrainingItem_writes_row (now : Date) (itemId newParent : string)
    (newOrderIndex : Z) (db : table) (row : ItemFields) :
  db !! itemId = Some row →
  newParent ≠ "" →
  ∃ row',
    (moveTrainingItem now itemId (Some newParent) newOrderIndex db).1 !! itemId
    = Some row'
    ∧ parent_id row' = Some newParent
    ∧ order_index row' = newOrderIndex
    ∧ level row' = level row
    ∧ status row' = status row
    ∧ progress_percentage row' = progress_percentage row
    ∧ (∀ k, k ≠ itemId →
         (moveTrainingItem now itemId (Some newParent) newOrderIndex db).1 !! k
         = db !! k).
Proof.
  intros Hrow Hne. unfold moveTrainingItem. simpl.
  destruct (String.eqb_spec newParent "") as [|_]; [done|]. simpl.
  unfold updateTrainingItem, supabase_update. rewrite Hrow. simpl.
  eexists. split; [apply lookup_insert_eq|].
  repeat (split; [done|]).
  intros k Hk. by apply lookup_insert_ne.
Qed.

Lemma moveTrainingItem_writes_row_witness :
  let db : table := {[ "a" := sample "a" None 0; "b" := sample "b" None 1 ]} in
  ∃ row',
    (moveTrainingItem 7 "a" (Some "b") 4 db).1 !! "a" = Some row'
    ∧ parent_id row' = Some "b"
    ∧ order_index row' = 4
    ∧ level row' = 0
    ∧ status row' = NOT_STARTED
    ∧ progress_percentage row' = 0%Q
    ∧ (∀ k, k ≠ "a" → (moveTrainingItem 7 "a" (Some "b") 4 db).1 !! k = db !! k).
Proof.
  apply (moveTrainingItem_writes_row 7 "a" "b" 4 _ (sample "a" None 0)).
  - reflexivity.
  - discriminate.
Defined.



